(** * PYPI-Scraper: the crawl pipeline of [main.go], embedded and verified

    The development follows the source file top-down:
    - [Bytes]: Go byte slices and strings, 64-bit integers;
    - [Regexp]: the fragment of Go's [regexp] syntax the anchor pattern
      uses, with the leftmost-first matching discipline of the Go engine;
    - [Anchors]: [exctractUrls];
    - [Crawl]: [RequestManager], [Distribution], [Package], [getPackages]
      and the body of [main], over an abstract platform (URL parsing and
      the HTTP transport of the Go standard library);
    - [Interleaving]: the goroutine-level small-step view of
      [RequestManager.Request] on the two shared atomic counters. *)

From Stdlib Require Import ZArith Lia Ascii String DecimalString.
From stdpp Require Import base list relations.

Open Scope Z_scope.

(** ** Byte strings and machine integers *)

Module Bytes.

(** A Go [[]byte] and a Go [string] are both finite byte sequences. *)
Definition bytes := list ascii.

Definition B (s : string) : bytes := list_ascii_of_string s.
Arguments B : simpl never.

Definition dquote : ascii := "034"%char.
Definition newline : ascii := "010"%char.

(** [int64] and [uint64] arithmetic wraps around. *)
Definition wrap_int64 (z : Z) : Z := (z + 2 ^ 63) mod 2 ^ 64 - 2 ^ 63.
Definition wrap_uint64 (z : Z) : Z := z mod 2 ^ 64.

Definition int64_add (a b : Z) : Z := wrap_int64 (a + b).
Definition int64_sub (a b : Z) : Z := wrap_int64 (a - b).
Definition uint64_add (a b : Z) : Z := wrap_uint64 (a + b).

(** The conversion [uint64(x)] of a signed 64-bit value. *)
Definition uint64_of_int (x : Z) : Z := wrap_uint64 x.

Definition in_int64 (z : Z) : Prop := - 2 ^ 63 <= z < 2 ^ 63.
Definition in_uint64 (z : Z) : Prop := 0 <= z < 2 ^ 64.

(** [fmt.Sprintf("%d", n)]. *)
Definition Sprintf_d (n : Z) : bytes :=
  B (NilZero.string_of_int (Z.to_int n)).

End Bytes.
Import Bytes.

(** ** The regular-expression fragment *)

Module Regexp.

(** The anchor pattern is a concatenation of single characters, greedy
    stars over a character class, and capture groups around a star.  A
    class is its membership test on one byte. *)
Inductive item : Type :=
| Ch (c : ascii)                  (* a literal character *)
| Star (cls : ascii -> bool)      (* greedy star of a class *)
| Group (cls : ascii -> bool).    (* greedy star of a class, captured *)

Definition pattern := list item.

(** [[^c]]: a negated class matches every byte but [c], line breaks
    included. *)
Definition not_char (c : ascii) : ascii -> bool :=
  fun x => negb (Ascii.eqb x c).

(** [.] without the [s] flag: every byte but the line feed. *)
Definition dot : ascii -> bool := not_char newline.

Definition lit (s : string) : pattern := map Ch (B s).

(** The outcome of a match attempt anchored at the head of the input:
    the captured groups in order, and the unread rest. *)
Definition outcome : Type := list bytes * bytes.

(** Greedy iteration of a class in front of a continuation [k]: take one
    more byte when the class allows it and the whole rest then matches,
    otherwise hand over to [k] here.  The first component of the result is
    what the star consumed. *)
Fixpoint star (cls : ascii -> bool) (k : bytes -> option outcome)
    (s : bytes) : option (bytes * outcome) :=
  match s with
  | x :: s' =>
      if cls x then
        match star cls k s' with
        | Some (taken, o) => Some (x :: taken, o)
        | None => o ← k s; Some ([], o)
        end
      else o ← k s; Some ([], o)
  | [] => o ← k s; Some ([], o)
  end.

(** Backtracking match of a pattern at the head of [s]; among the ways to
    match, the one preferred by the Go engine (leftmost-first: every star
    as long as the rest of the pattern permits). *)
Fixpoint match_here (p : pattern) : bytes -> option outcome :=
  match p with
  | [] => fun s => Some ([], s)
  | Ch c :: p' => fun s =>
      match s with
      | x :: s' => if Ascii.eqb x c then match_here p' s' else None
      | [] => None
      end
  | Star cls :: p' => fun s =>
      '(_, o) ← star cls (match_here p') s; Some o
  | Group cls :: p' => fun s =>
      '(taken, (gs, rest)) ← star cls (match_here p') s;
      Some (taken :: gs, rest)
  end.

(** One element of the result of [FindAllSubmatch]: the whole match
    followed by the groups. *)
Definition submatch (s : bytes) (o : outcome) : list bytes :=
  take (length s - length o.2) s :: o.1.

(** [FindAllSubmatch(s, -1)] for a pattern that matches no empty string:
    the leftmost match from the current position is reported and the
    search resumes where it ended.  [skip] counts the bytes of the last
    match that are still to be passed over. *)
Fixpoint find_all (p : pattern) (skip : nat) (s : bytes) : list (list bytes) :=
  match s with
  | [] => []
  | _ :: s' =>
      match skip with
      | S n => find_all p n s'
      | O =>
          match match_here p s with
          | Some o => submatch s o :: find_all p (length s - length o.2 - 1) s'
          | None => find_all p 0 s'
          end
      end
  end.

Definition FindAllSubmatch (p : pattern) (s : bytes) : list (list bytes) :=
  find_all p 0 s.

(** What a pattern matches, apart from the order in which the engine
    tries: the bytes matched and the groups captured. *)
Inductive matches_item : item -> bytes -> list bytes -> Prop :=
| matches_Ch c : matches_item (Ch c) [c] []
| matches_Star cls a : forallb cls a = true -> matches_item (Star cls) a []
| matches_Group cls a : forallb cls a = true -> matches_item (Group cls) a [a].

Inductive matches : pattern -> bytes -> list bytes -> Prop :=
| matches_nil : matches [] [] []
| matches_cons i p a gs b gs' :
    matches_item i a gs -> matches p b gs' ->
    matches (i :: p) (a ++ b) (gs ++ gs').

End Regexp.

(** ** The anchor extractor *)

Module Anchors.
Import Regexp.

Record AnchorTag : Type := { href : bytes; text : bytes }.

(** The pattern compiled on line 138: the literal [<a href=] and a double
    quote; group 1, a star of any byte but the double quote; a double
    quote; a star of [.]; the literal [>]; group 2, a star of any byte but
    [<]; the literal [</a>]. *)
Definition anchor_regex : pattern :=
  lit "<a href=" ++ [Ch dquote; Group (not_char dquote); Ch dquote;
                     Star dot; Ch ">"%char; Group (not_char "<"%char)]
  ++ lit "</a>".

(** [for i, x := range xs { out[i] = f(x) }] on a slice [out] made
    beforehand; an index past the end would panic in Go and leaves the
    list unchanged here, which [range_fill_map] shows never happens. *)
Fixpoint range_fill {A X : Type} (f : X -> A) (i : nat) (xs : list X)
    (out : list A) : list A :=
  match xs with
  | [] => out
  | x :: xs' => range_fill f (S i) xs' (<[i := f x]> out)
  end.

Definition zeroAnchorTag : AnchorTag := {| href := []; text := [] |}.

Definition exctractUrls (body : bytes) : list AnchorTag :=
  let anchors := FindAllSubmatch anchor_regex body in
  let urls := replicate (length anchors) zeroAnchorTag in
  range_fill (fun anchor => {| href := anchor !!! 1%nat;
                               text := anchor !!! 2%nat |})
             0 anchors urls.

End Anchors.
Import Anchors.

(** ** The crawl: manager, discovery, probe, sink, orchestrator *)

Module Crawl.

(** [*http.Response] as far as the program looks at it: the URL of the
    request that was answered last (after redirects), what
    [io.ReadAll(response.Body)] yields, and the reported length. *)
Record Response (URL error : Type) : Type := {
  Request_URL : URL;
  Body : error + bytes;
  ContentLength : Z
}.
Arguments Request_URL {URL error} _.
Arguments Body {URL error} _.
Arguments ContentLength {URL error} _.

(** What the program takes from the Go standard library.  The transport
    answers a request in view of all requests sent before it. *)
Class Platform : Type := {
  URL : Type;
  error : Type;
  url_Parse : bytes -> error + URL;
  ResolveReference : URL -> URL -> URL;
  URL_String : URL -> bytes;
  RoundTrip : list (bytes * URL) -> bytes -> URL -> error + Response URL error
}.

Definition MAX_CONCURRENT_REQUESTS : Z := 10000.
Definition LOG_INTERVAL : Z := 1000000000.
Definition REQUEST_RETRY_DELAY : Z := 1000000000.
Definition PACKAGE_ITERATION_DELAY : Z := 1000.

Record RequestManager : Type := {
  totalRequests : Z;
  requestsFinished : Z;
  maxConcurrentRequests : Z;
  requestRetryDelay : Z
}.

Definition getRunningRequests (client : RequestManager) : Z :=
  int64_sub (totalRequests client) (requestsFinished client).

(** The [csv.Writer] on top of the output file: [records] is the history
    of the records handed to [Write], [buffered] the content of the
    writer's 4096-byte buffer, [file] what has reached the file. *)
Record Sink : Type := {
  records : list (list bytes);
  buffered : bytes;
  file : bytes;
  closed : bool
}.

Section Program.
Context {P : Platform}.

Record Package : Type := { name : bytes; url : bytes }.

Record Distribution : Type := {
  pkg : Package;
  dist_name : bytes;
  dist_url : bytes
}.

(** The state of the process: the manager behind the pointer every
    goroutine holds, the requests sent so far, the time slept, the wait
    group, the three progress counters and the sink. *)
Record State : Type := {
  rm : RequestManager;
  wire : list (bytes * URL);
  slept : Z;
  tasksGroup : Z;
  packagesScraped : Z;
  distributionsFound : Z;
  totalSizeBytes : Z;
  writer : Sink
}.

(** A computation changes the state and returns, or never returns
    ([None]). *)
Definition M (A : Type) : Type := State -> option (State * A).

Definition ret {A} (a : A) : M A := fun s => Some (s, a).
Definition bind {A C} (m : M A) (k : A -> M C) : M C :=
  fun s => match m s with
           | Some (s', a) => k a s'
           | None => None
           end.
Definition modify (f : State -> State) : M unit := fun s => Some (f s, tt).

Notation "x <- m ;; k" := (bind m (fun x => k))
  (at level 100, m at level 99, k at level 200, right associativity).
Notation "m ;; k" := (bind m (fun _ => k))
  (at level 100, k at level 200, right associativity).

Definition set_rm (f : RequestManager -> RequestManager) (s : State) : State :=
  {| rm := f (rm s); wire := wire s; slept := slept s;
     tasksGroup := tasksGroup s; packagesScraped := packagesScraped s;
     distributionsFound := distributionsFound s;
     totalSizeBytes := totalSizeBytes s; writer := writer s |}.

Definition set_wire (f : list (bytes * URL) -> list (bytes * URL))
    (s : State) : State :=
  {| rm := rm s; wire := f (wire s); slept := slept s;
     tasksGroup := tasksGroup s; packagesScraped := packagesScraped s;
     distributionsFound := distributionsFound s;
     totalSizeBytes := totalSizeBytes s; writer := writer s |}.

Definition set_slept (f : Z -> Z) (s : State) : State :=
  {| rm := rm s; wire := wire s; slept := f (slept s);
     tasksGroup := tasksGroup s; packagesScraped := packagesScraped s;
     distributionsFound := distributionsFound s;
     totalSizeBytes := totalSizeBytes s; writer := writer s |}.

Definition set_tasksGroup (f : Z -> Z) (s : State) : State :=
  {| rm := rm s; wire := wire s; slept := slept s;
     tasksGroup := f (tasksGroup s); packagesScraped := packagesScraped s;
     distributionsFound := distributionsFound s;
     totalSizeBytes := totalSizeBytes s; writer := writer s |}.

Definition set_packagesScraped (f : Z -> Z) (s : State) : State :=
  {| rm := rm s; wire := wire s; slept := slept s;
     tasksGroup := tasksGroup s; packagesScraped := f (packagesScraped s);
     distributionsFound := distributionsFound s;
     totalSizeBytes := totalSizeBytes s; writer := writer s |}.

Definition set_distributionsFound (f : Z -> Z) (s : State) : State :=
  {| rm := rm s; wire := wire s; slept := slept s;
     tasksGroup := tasksGroup s; packagesScraped := packagesScraped s;
     distributionsFound := f (distributionsFound s);
     totalSizeBytes := totalSizeBytes s; writer := writer s |}.

Definition set_totalSizeBytes (f : Z -> Z) (s : State) : State :=
  {| rm := rm s; wire := wire s; slept := slept s;
     tasksGroup := tasksGroup s; packagesScraped := packagesScraped s;
     distributionsFound := distributionsFound s;
     totalSizeBytes := f (totalSizeBytes s); writer := writer s |}.

Definition set_writer (f : Sink -> Sink) (s : State) : State :=
  {| rm := rm s; wire := wire s; slept := slept s;
     tasksGroup := tasksGroup s; packagesScraped := packagesScraped s;
     distributionsFound := distributionsFound s;
     totalSizeBytes := totalSizeBytes s; writer := f (writer s) |}.

(** *** RequestManager *)

Definition totalRequests_Add (d : Z) (c : RequestManager) : RequestManager :=
  {| totalRequests := int64_add (totalRequests c) d;
     requestsFinished := requestsFinished c;
     maxConcurrentRequests := maxConcurrentRequests c;
     requestRetryDelay := requestRetryDelay c |}.

Definition requestsFinished_Add (d : Z) (c : RequestManager) : RequestManager :=
  {| totalRequests := totalRequests c;
     requestsFinished := int64_add (requestsFinished c) d;
     maxConcurrentRequests := maxConcurrentRequests c;
     requestRetryDelay := requestRetryDelay c |}.

Definition Sleep (d : Z) : M unit := modify (set_slept (fun t => t + d)).

(** [http.DefaultClient.Do]: the request goes on the wire and the
    transport answers. *)
Definition Do (method : bytes) (u : URL) : M (error + Response URL error) :=
  fun s => Some (set_wire (fun w => w ++ [(method, u)]) s,
                 RoundTrip (wire s) method u).

(** Lines 58-60.  Nothing but this goroutine runs in the sequential
    reading, so [fuel] bounds the number of polls. *)
Fixpoint await_slot (fuel : nat) : M unit :=
  fun s =>
    if maxConcurrentRequests (rm s) <=? getRunningRequests (rm s) then
      match fuel with
      | O => None
      | S n => (Sleep (requestRetryDelay (rm s)) ;; await_slot n) s
      end
    else Some (s, tt).

Definition Request (fuel : nat) (method request_url : bytes)
  : M (error + Response URL error) :=
  await_slot fuel ;;
  match url_Parse request_url with
  | inl err => ret (inl err)
  | inr u =>
      modify (set_rm (totalRequests_Add 1)) ;;
      r <- Do method u ;;
      modify (set_rm (requestsFinished_Add 1)) ;;
      ret r
  end.

Definition Get (fuel : nat) (request_url : bytes) := Request fuel (B "GET") request_url.
Definition Head (fuel : nat) (request_url : bytes) := Request fuel (B "HEAD") request_url.

(** [int(x)] for an [int64] [x], on a platform whose [int] has 64 bits. *)
Definition int_of_int64 (x : Z) : Z := wrap_int64 x.

(** *** Distribution, Package *)

(** A Go result pair [(value, err)]; [None] is the [nil] error. *)
Definition getSizeBytes (fuel : nat) (dist : Distribution)
  : M (Z * option error) :=
  r <- Head fuel (dist_url dist) ;;
  match r with
  | inl err => ret (0, Some err)
  | inr response => ret (int_of_int64 (ContentLength response), None)
  end.

(** [for i, x := range xs] with a body that either returns [nil, err]
    from the enclosing function or stores into [out[i]]. *)
Fixpoint range_try {A X : Type} (body : X -> error + A) (i : nat)
    (xs : list X) (out : list A) : list A * option error :=
  match xs with
  | [] => (out, None)
  | x :: xs' =>
      match body x with
      | inl err => ([], Some err)
      | inr a => range_try body (S i) xs' (<[i := a]> out)
      end
  end.

Definition zeroPackage : Package := {| name := []; url := [] |}.
Definition zeroDistribution : Distribution :=
  {| pkg := zeroPackage; dist_name := []; dist_url := [] |}.

Definition getDistributions (fuel : nat) (pkg : Package)
  : M (list Distribution * option error) :=
  r <- Get fuel (url pkg) ;;
  match r with
  | inl err => ret ([], Some err)
  | inr response =>
      match Body response with
      | inl err => ret ([], Some err)
      | inr body =>
          let err : option error := None in
          let urls := exctractUrls body in
          let distributions := replicate (length urls) zeroDistribution in
          ret (range_try
                 (fun anchorTag =>
                    match err with
                    | Some e => inl e
                    | None => inr {| pkg := pkg; dist_url := href anchorTag;
                                     dist_name := text anchorTag |}
                    end)
                 0 urls distributions)
      end
  end.

(** [http.Get]: the URL is parsed, then the default client sends the
    request; no manager is involved. *)
Definition http_Get (request_url : bytes) : M (error + Response URL error) :=
  match url_Parse request_url with
  | inl err => ret (inl err)
  | inr u => Do (B "GET") u
  end.

Definition getPackages (registry_url : bytes)
  : M (list Package * option error) :=
  r <- http_Get registry_url ;;
  match r with
  | inl err => ret ([], Some err)
  | inr response =>
      match Body response with
      | inl err => ret ([], Some err)
      | inr body =>
          let urls := exctractUrls body in
          let packages := replicate (length urls) zeroPackage in
          ret (range_try
                 (fun anchorTag =>
                    match url_Parse (href anchorTag) with
                    | inl err => inl err
                    | inr u =>
                        let package_url := ResolveReference (Request_URL response) u in
                        inr {| name := text anchorTag;
                               url := URL_String package_url |}
                    end)
                 0 urls packages)
      end
  end.

(** *** The sink: [encoding/csv] over [bufio] over the file *)

Definition bufio_size : nat := 4096.

Definition Buffered (w : Sink) : nat := length (buffered w).
Definition Available (w : Sink) : nat := bufio_size - Buffered w.

Definition set_buffered (b : bytes) (w : Sink) : Sink :=
  {| records := records w; buffered := b; file := file w; closed := closed w |}.

Definition file_Write (p : bytes) (w : Sink) : Sink :=
  {| records := records w; buffered := buffered w; file := file w ++ p;
     closed := closed w |}.

Definition Flush (w : Sink) : Sink :=
  set_buffered [] (file_Write (buffered w) w).

Definition WriteByte (c : ascii) (w : Sink) : Sink :=
  let w := if (Available w <=? 0)%nat then Flush w else w in
  set_buffered (buffered w ++ [c]) w.

(** [bufio.Writer.WriteString] over a file: a string that does not fit
    goes to the file directly when the buffer is empty, and otherwise
    first tops the buffer up and flushes it. *)
Definition WriteString (s : bytes) (w : Sink) : Sink :=
  if (length s <=? Available w)%nat then set_buffered (buffered w ++ s) w
  else if (Buffered w =? 0)%nat then file_Write s w
  else
    let n := Available w in
    let w := Flush (set_buffered (buffered w ++ take n s) w) in
    let s := drop n s in
    if (length s <=? Available w)%nat then set_buffered (buffered w ++ s) w
    else file_Write s w.

Definition byte_in (c : ascii) (l : list nat) : bool :=
  existsb (Nat.eqb (nat_of_ascii c)) l.

(** [unicode.IsSpace] of the first rune of a UTF-8 string. *)
Definition leading_space (field : bytes) : bool :=
  match map nat_of_ascii (take 3 field) with
  | c :: rest =>
      existsb (Nat.eqb c) [9; 10; 11; 12; 13; 32]%nat
      || match c, rest with
         | 194, d :: _ => existsb (Nat.eqb d) [133; 160]
         | 225, [154; 128] => true
         | 226, [128; d] =>
             (128 <=? d)%nat && (d <=? 138)%nat
             || existsb (Nat.eqb d) [168; 169; 175]
         | 226, [129; 159] => true
         | 227, [128; 128] => true
         | _, _ => false
         end%nat
  | [] => false
  end.

Definition fieldNeedsQuotes (field : bytes) : bool :=
  match field with
  | [] => false
  | _ =>
      bool_decide (map nat_of_ascii field = [92; 46]%nat)
      || existsb (fun c => byte_in c [10; 13; 34; 44]%nat) field
      || leading_space field
  end.

(** The body of a quoted field: stretches free of double quotes and line
    breaks are copied with [WriteString], a double quote is doubled. *)
Fixpoint write_quoted (pending field : bytes) (w : Sink) : Sink :=
  match field with
  | [] => WriteString pending w
  | c :: rest =>
      if byte_in c [34]%nat then
        write_quoted [] rest (WriteString [dquote; dquote] (WriteString pending w))
      else if byte_in c [10; 13]%nat then
        write_quoted [] rest (WriteByte c (WriteString pending w))
      else write_quoted (pending ++ [c]) rest w
  end.

Definition write_field (field : bytes) (w : Sink) : Sink :=
  if fieldNeedsQuotes field then
    WriteByte dquote (write_quoted [] field (WriteByte dquote w))
  else WriteString field w.

Fixpoint write_fields (n : nat) (record : list bytes) (w : Sink) : Sink :=
  match record with
  | [] => w
  | field :: rest =>
      let w := match n with O => w | S _ => WriteByte ","%char w end in
      write_fields (S n) rest (write_field field w)
  end.

(** [csv.Writer.Write]; nothing here flushes the buffer. *)
Definition Write (record : list bytes) (w : Sink) : Sink :=
  let w := WriteByte newline (write_fields 0 record w) in
  {| records := records w ++ [record]; buffered := buffered w;
     file := file w; closed := closed w |}.

Definition NewWriter : Sink :=
  {| records := []; buffered := []; file := []; closed := false |}.

Definition Close (w : Sink) : Sink :=
  {| records := records w; buffered := buffered w; file := file w;
     closed := true |}.

(** *** main *)

Definition uint32_add (a b : Z) : Z := (a + b) mod 2 ^ 32.

(** Lines 227-235, one iteration of the loop over the distributions of
    [pkg]; the result is the value the goroutine panics with, if any. *)
Definition probe (fuel : nat) (pkg : Package) (distribution : Distribution)
  : M (option error) :=
  modify (set_distributionsFound (fun n => uint32_add n 1)) ;;
  r <- getSizeBytes fuel distribution ;;
  let '(size, err) := r in
  modify (set_totalSizeBytes (fun n => uint64_add n (uint64_of_int size))) ;;
  match err with
  | Some e => ret (Some e)
  | None =>
      modify (set_writer (Write [name pkg; dist_name distribution;
                                 Sprintf_d size])) ;;
      ret None
  end.

Fixpoint probe_all (fuel : nat) (pkg : Package)
    (distributions : list Distribution) : M (option error) :=
  match distributions with
  | [] => ret None
  | distribution :: rest =>
      p <- probe fuel pkg distribution ;;
      match p with
      | Some e => ret (Some e)
      | None => probe_all fuel pkg rest
      end
  end.

(** Lines 222-238, the goroutine of one package. *)
Definition crawl_package (fuel : nat) (pkg : Package) : M (option error) :=
  r <- getDistributions fuel pkg ;;
  let '(distributions, err) := r in
  match err with
  | Some e => ret (Some e)
  | None =>
      p <- probe_all fuel pkg distributions ;;
      match p with
      | Some e => ret (Some e)
      | None => modify (set_tasksGroup (fun n => n - 1)) ;; ret None
      end
  end.

(** Lines 218-240 under one schedule: the source starts the goroutine of
    each package with [go] and lets them interleave; here each goroutine
    runs to its end as soon as it is launched, and a panic ends the
    process.  What is proved of [launch_all] and of [main] holds of that
    schedule. *)
Fixpoint launch_all (fuel : nat) (packages : list Package) : M (option error) :=
  match packages with
  | [] => ret None
  | pkg :: rest =>
      modify (set_tasksGroup (fun n => n + 1)) ;;
      modify (set_packagesScraped (fun n => uint32_add n 1)) ;;
      p <- crawl_package fuel pkg ;;
      match p with
      | Some e => ret (Some e)
      | None => Sleep PACKAGE_ITERATION_DELAY ;; launch_all fuel rest
      end
  end.

Definition requestManager : RequestManager :=
  {| totalRequests := 0; requestsFinished := 0;
     maxConcurrentRequests := MAX_CONCURRENT_REQUESTS;
     requestRetryDelay := REQUEST_RETRY_DELAY |}.

Definition tasksGroup_Wait : M unit :=
  fun s => if tasksGroup s =? 0 then Some (s, tt) else None.

(** The state at process start. *)
Definition boot : State :=
  {| rm := requestManager; wire := []; slept := 0; tasksGroup := 0;
     packagesScraped := 0; distributionsFound := 0; totalSizeBytes := 0;
     writer := NewWriter |}.

Definition main (fuel : nat) : M (option error) :=
  r <- getPackages (B "https://pypi.org/simple/") ;;
  let '(packages, err) := r in
  match err with
  | Some e => ret (Some e)
  | None =>
      modify (set_rm (fun _ => requestManager)) ;;
      modify (set_tasksGroup (fun _ => 0)) ;;
      modify (set_packagesScraped (fun _ => 0)) ;;
      modify (set_distributionsFound (fun _ => 0)) ;;
      modify (set_totalSizeBytes (fun _ => 0)) ;;
      modify (set_writer (fun _ => NewWriter)) ;;
      modify (set_writer (Write [B "Package"; B "Distribution"; B "Size"])) ;;
      p <- launch_all fuel packages ;;
      match p with
      | Some e => ret (Some e)
      | None =>
          tasksGroup_Wait ;;
          modify (set_writer Close) ;;
          ret None
      end
  end.

(** *** Vocabulary of the statements *)

(** The part of the state outside the manager, the wire and the clock. *)
Definition same_progress (s s' : State) : Prop :=
  tasksGroup s' = tasksGroup s /\ packagesScraped s' = packagesScraped s /\
  distributionsFound s' = distributionsFound s /\
  totalSizeBytes s' = totalSizeBytes s /\ writer s' = writer s.

(** Everything written through the writer so far, flushed or not. *)
Definition stream (w : Sink) : bytes := file w ++ buffered w.

(** From [w] to [w'] the stream was extended, and the file was left alone
    unless the stream outgrew the buffer. *)
Definition held (w w' : Sink) : Prop :=
  (exists added, stream w' = stream w ++ added) /\
  ((length (stream w') <= bufio_size)%nat -> file w' = file w).

Definition header : list bytes := [B "Package"; B "Distribution"; B "Size"].

(** [response] is the answer of the registry to the [HEAD] of [d]. *)
Definition answers_head (d : Distribution) (response : Response URL error) : Prop :=
  exists (before : list (bytes * URL)) (u : URL),
    url_Parse (dist_url d) = inr u /\
    RoundTrip before (B "HEAD") u = inr response.

(** A record whose third field is the decimal form of a natural number. *)
Definition nonnegative_size (row : list bytes) : Prop :=
  exists n : Z, 0 <= n /\ row !! 2%nat = Some (Sprintf_d n).

Definition row_of (pkg : Package) (d : Distribution) (size : Z) : list bytes :=
  [name pkg; dist_name d; Sprintf_d size].

(** The records [rows] handed to the writer one after the other. *)
Definition writes (rows : list (list bytes)) (w : Sink) : Sink :=
  foldl (fun w row => Write row w) w rows.

(** No request is in flight, the ceiling is the one of [main], and the
    manager has counted every request on the wire but [skipped]. *)
Definition steady (skipped : Z) (s : State) : Prop :=
  totalRequests (rm s) = requestsFinished (rm s) /\
  maxConcurrentRequests (rm s) = MAX_CONCURRENT_REQUESTS /\
  totalRequests (rm s) = wrap_int64 (Z.of_nat (length (wire s)) - skipped).

Definition ends_with_newline (b : bytes) : Prop :=
  exists b', b = b' ++ [newline].

End Program.
End Crawl.

(** ** Goroutines in [Request]: the interleaving view *)

Module Interleaving.
Import Crawl.

Section Threads.
Context {P : Platform}.

(** Where a goroutine stands inside [Request] (lines 57-74), with the
    locals it holds there.  [getRunningRequests] is two atomic loads, the
    left operand of the subtraction first. *)
Inductive pc : Type :=
| Idle
| LoadTotal (method request_url : bytes)
| LoadFinished (method request_url : bytes) (total : Z)
| Compare (method request_url : bytes) (running : Z)
| Sleeping (method request_url : bytes)
| Parsing (method request_url : bytes)
| AddTotal (method : bytes) (u : URL)
| Sending (method : bytes) (u : URL)
| AddFinished (r : error + Response URL error)
| Returned (r : error + Response URL error).

(** What the goroutines share. *)
Record Shared : Type := {
  manager : RequestManager;
  sent : list (bytes * URL)
}.

Definition on_manager (f : RequestManager -> RequestManager) (sh : Shared) : Shared :=
  {| manager := f (manager sh); sent := sent sh |}.

(** One atomic action of one goroutine. *)
Inductive thread_step : Shared -> pc -> Shared -> pc -> Prop :=
| step_call sh method request_url :
    thread_step sh Idle sh (LoadTotal method request_url)
| step_load_total sh m u :
    thread_step sh (LoadTotal m u)
                sh (LoadFinished m u (totalRequests (manager sh)))
| step_load_finished sh m u total :
    thread_step sh (LoadFinished m u total)
                sh (Compare m u (int64_sub total (requestsFinished (manager sh))))
| step_full sh m u running :
    maxConcurrentRequests (manager sh) <= running ->
    thread_step sh (Compare m u running) sh (Sleeping m u)
| step_free sh m u running :
    running < maxConcurrentRequests (manager sh) ->
    thread_step sh (Compare m u running) sh (Parsing m u)
| step_wake sh m u :
    thread_step sh (Sleeping m u) sh (LoadTotal m u)
| step_parse_error sh m request_url err :
    url_Parse request_url = inl err ->
    thread_step sh (Parsing m request_url) sh (Returned (inl err))
| step_parse sh m request_url u :
    url_Parse request_url = inr u ->
    thread_step sh (Parsing m request_url) sh (AddTotal m u)
| step_add_total sh m u :
    thread_step sh (AddTotal m u)
                (on_manager (totalRequests_Add 1) sh) (Sending m u)
| step_send sh m u :
    thread_step sh (Sending m u)
                {| manager := manager sh; sent := sent sh ++ [(m, u)] |}
                (AddFinished (RoundTrip (sent sh) m u))
| step_add_finished sh r :
    thread_step sh (AddFinished r)
                (on_manager (requestsFinished_Add 1) sh) (Returned r)
| step_return sh r :
    thread_step sh (Returned r) sh Idle.

Record Config : Type := { shared : Shared; threads : list pc }.

(** Any goroutine may take the next action. *)
Inductive step : Config -> Config -> Prop :=
| step_thread c i t sh' t' :
    threads c !! i = Some t ->
    thread_step (shared c) t sh' t' ->
    step c {| shared := sh'; threads := <[i := t']> (threads c) |}.

(** [n] goroutines and the manager [main] creates. *)
Definition init (n : nat) : Config :=
  {| shared := {| manager := requestManager; sent := [] |};
     threads := replicate n Idle |}.

Definition reachable (n : nat) (c : Config) : Prop := rtc step (init n) c.

(** A request is in flight between the two additions. *)
Definition in_flight (t : pc) : bool :=
  match t with
  | Sending _ _ | AddFinished _ => true
  | _ => false
  end.

Definition flying (ts : list pc) : Z :=
  foldr (fun t n => Z.b2z (in_flight t) + n) 0 ts.

(** One goroutine on its own, as a relation on what is shared and where
    it stands. *)
Definition solo (a b : Shared * pc) : Prop :=
  thread_step a.1 a.2 b.1 b.2.

(** Goroutines that have added to [totalRequests] and not yet sent, and
    goroutines that hold an answer and have not yet added to
    [requestsFinished]. *)
Definition is_sending (t : pc) : bool :=
  match t with Sending _ _ => true | _ => false end.

Definition is_answered (t : pc) : bool :=
  match t with AddFinished _ => true | _ => false end.

Definition count_pc (f : pc -> bool) (ts : list pc) : Z :=
  foldr (fun t n => Z.b2z (f t) + n) 0 ts.

(** The counters agree with the wire. *)
Definition accounted (c : Config) : Prop :=
  let wire_length := Z.of_nat (length (sent (shared c))) in
  totalRequests (manager (shared c))
  = wrap_int64 (wire_length + count_pc is_sending (threads c)) /\
  requestsFinished (manager (shared c))
  = wrap_int64 (wire_length - count_pc is_answered (threads c)).

End Threads.
End Interleaving.

(** ** Pages with one anchor to a line *)

Module Page.
Import Regexp.

(** A line of a registry page: an anchor between a lead and a trail, or
    anything else. *)
Inductive line : Type :=
| Anchor (lead h t trail : bytes)
| Other (content : bytes).

Definition anchor_bytes (h t : bytes) : bytes :=
  B "<a href=" ++ [dquote] ++ h ++ [dquote] ++ B ">" ++ t ++ B "</a>".

Definition render_line (l : line) : bytes :=
  match l with
  | Anchor lead h t trail => lead ++ anchor_bytes h t ++ trail ++ [newline]
  | Other content => content ++ [newline]
  end.

Definition render (page : list line) : bytes :=
  concat (map render_line page).

Definition anchors_of (page : list line) : list AnchorTag :=
  omap (fun l => match l with
                 | Anchor _ h t _ => Some {| href := h; text := t |}
                 | Other _ => None
                 end) page.

Fixpoint starts_with (p s : bytes) : bool :=
  match p, s with
  | [], _ => true
  | c :: p', x :: s' => Ascii.eqb x c && starts_with p' s'
  | _ :: _, [] => false
  end.

(** Does [p] occur somewhere in [s]? *)
Fixpoint occurs (p s : bytes) : bool :=
  starts_with p s ||
  match s with
  | [] => false
  | _ :: s' => occurs p s'
  end.

Definition free_of (c : ascii) (s : bytes) : bool :=
  forallb (not_char c) s.

Definition opener : bytes := B "<a href=" ++ [dquote].
Definition closer : bytes := B "</a>".

(** Text that holds no line break, no anchor opening and no anchor
    closing. *)
Definition quiet (s : bytes) : bool :=
  free_of newline s && negb (occurs opener s) && negb (occurs closer s).

(** Is [s] a run of bytes other than [<] followed by the closer?  This
    is what the pattern asks for behind a [>]. *)
Fixpoint closes (s : bytes) : bool :=
  match s with
  | [] => false
  | x :: s' => if not_char "<"%char x then closes s' else starts_with closer s
  end.

(** The pattern from the [>] on. *)
Definition tail_regex : pattern :=
  [Ch ">"%char; Group (not_char "<"%char)] ++ lit "</a>".

(** No place of [s] before its first line break is one where the
    pattern from the [>] on would match. *)
Definition line_tail_free (s : bytes) : Prop :=
  forall a rest, s = a ++ rest -> forallb dot a = true ->
                 match_here tail_regex rest = None.

Definition well_formed_line (l : line) : bool :=
  match l with
  | Anchor lead h t trail =>
      free_of "<"%char lead && free_of dquote h
      && free_of "<"%char t && free_of ">"%char t && quiet trail
  | Other content => quiet content
  end.

Definition well_formed (page : list line) : bool :=
  forallb well_formed_line page.

End Page.

(** ** A concrete platform for the examples *)

Module Demo.
Import Crawl.

Definition slash : ascii := "/"%char.

Definition has_ctl (s : bytes) : bool :=
  existsb (fun c => (nat_of_ascii c <? 32)%nat || (nat_of_ascii c =? 127)%nat) s.

(** Where the authority of an absolute URL ends: past [scheme://host]. *)
Fixpoint authority_end (slashes : nat) (s : bytes) : nat :=
  match s with
  | [] => O
  | c :: s' =>
      if Ascii.eqb c slash then
        match slashes with
        | 2%nat => O
        | _ => S (authority_end (S slashes) s')
        end
      else S (authority_end slashes s')
  end.

Fixpoint last_slash (s : bytes) : option nat :=
  match s with
  | [] => None
  | c :: s' =>
      match last_slash s' with
      | Some n => Some (S n)
      | None => if Ascii.eqb c slash then Some O else None
      end
  end.

Fixpoint has_scheme (s : bytes) : bool :=
  match s with
  | c1 :: ((c2 :: c3 :: _) as s') =>
      Ascii.eqb c1 ":"%char && Ascii.eqb c2 slash && Ascii.eqb c3 slash
      || has_scheme s'
  | _ => false
  end.

(** Reference resolution for the three shapes the examples use: an
    absolute URL, an absolute path, a path relative to the directory of
    the base. *)
Definition resolve (base ref : bytes) : bytes :=
  if has_scheme ref then ref
  else
    match ref with
    | c :: _ =>
        if Ascii.eqb c slash then take (authority_end 0 base) base ++ ref
        else
          match last_slash base with
          | Some n => take (S n) base ++ ref
          | None => ref
          end
    | [] => base
    end.

Fixpoint bytes_eqb (a b : bytes) : bool :=
  match a, b with
  | [], [] => true
  | x :: a', y :: b' => Ascii.eqb x y && bytes_eqb a' b'
  | _, _ => false
  end.

(** A site: the answer to each method and URL. *)
Definition site := list (bytes * bytes * (bytes + Response bytes bytes)).

Fixpoint serve (t : site) (method u : bytes) : bytes + Response bytes bytes :=
  match t with
  | [] => inl (B "no such host")
  | (m, v, r) :: t' =>
      if bytes_eqb m method && bytes_eqb v u then r else serve t' method u
  end.

Definition platform (t : site) : Platform :=
  {| URL := bytes; error := bytes;
     url_Parse := fun s => if has_ctl s then inl (B "invalid control character in URL")
                           else inr s;
     ResolveReference := resolve;
     URL_String := fun u => u;
     RoundTrip := fun _ method u => serve t method u |}.

Definition page (u : string) (body : string) : bytes + Response bytes bytes :=
  inr {| Request_URL := B u; Body := inr (B body); ContentLength := -1 |}.

Definition head (u : string) (n : Z) : bytes + Response bytes bytes :=
  inr {| Request_URL := B u; Body := inr []; ContentLength := n |}.

Definition q : string := String dquote EmptyString.

Definition anchor (h t : string) : string :=
  ("<a href=" ++ q ++ h ++ q ++ ">" ++ t ++ "</a>")%string.

Definition nl : string := String newline EmptyString.

(** The registry of the end-to-end scenario. *)
Definition two_packages : site :=
  [ (B "GET", B "https://pypi.org/simple/",
     page "https://pypi.org/simple/"
          (anchor "/simple/pkga/" "pkgA" ++ nl ++ anchor "/simple/pkgb/" "pkgB" ++ nl));
    (B "GET", B "https://pypi.org/simple/pkga/",
     page "https://pypi.org/simple/pkga/"
          (anchor "https://files.example/pkga-1.0.tar.gz" "pkga-1.0.tar.gz" ++ nl));
    (B "GET", B "https://pypi.org/simple/pkgb/",
     page "https://pypi.org/simple/pkgb/"
          (anchor "https://files.example/pkgb-1.0.tar.gz" "pkgb-1.0.tar.gz" ++ nl));
    (B "HEAD", B "https://files.example/pkga-1.0.tar.gz",
     head "https://files.example/pkga-1.0.tar.gz" 1024);
    (B "HEAD", B "https://files.example/pkgb-1.0.tar.gz",
     head "https://files.example/pkgb-1.0.tar.gz" 2048) ].

(** A registry whose only distribution reports no length. *)
Definition unknown_length : site :=
  [ (B "GET", B "https://pypi.org/simple/",
     page "https://pypi.org/simple/" (anchor "/simple/pkga/" "pkgA" ++ nl));
    (B "GET", B "https://pypi.org/simple/pkga/",
     page "https://pypi.org/simple/pkga/"
          (anchor "https://files.example/pkga-1.0.tar.gz" "pkga-1.0.tar.gz" ++ nl));
    (B "HEAD", B "https://files.example/pkga-1.0.tar.gz",
     head "https://files.example/pkga-1.0.tar.gz" (-1)) ].

(** A registry under another name, with a relative link. *)
Definition relative_link : site :=
  [ (B "GET", B "https://x/simple/",
     page "https://x/simple/" (anchor "pkg-a/" "pkg-a" ++ nl)) ].

Definition pkgA : Package :=
  {| name := B "pkgA"; url := B "https://pypi.org/simple/pkga/" |}.

Definition pkga_sdist : Distribution :=
  {| pkg := pkgA; dist_name := B "pkga-1.0.tar.gz";
     dist_url := B "https://files.example/pkga-1.0.tar.gz" |}.

(** Two anchors on one line. *)
Definition crowded_line : bytes :=
  B (anchor "a" "x" ++ anchor "b" "y").

(** Two goroutines; the second completes a request between the two
    loads of the first. *)
Definition stale_reading : @Interleaving.Config (platform []) :=
  {| Interleaving.shared :=
       {| Interleaving.manager :=
            {| totalRequests := 1; requestsFinished := 1;
               maxConcurrentRequests := MAX_CONCURRENT_REQUESTS;
               requestRetryDelay := REQUEST_RETRY_DELAY |};
          Interleaving.sent :=
            [(B "GET", B "https://pypi.org/simple/" : @URL (platform []))] |};
     Interleaving.threads :=
       [ Interleaving.Compare (B "GET") (B "https://pypi.org/simple/") (-1);
         Interleaving.Returned (inl (B "no such host" : @error (platform []))) ] |}.

End Demo.

(** * Properties *)

(** ** Loops that fill a slice made beforehand *)

Section RangeLoops.
Context {A X : Type}.

Lemma range_fill_app (f : X -> A) (xs : list X) :
  forall done rest : list A,
    length rest = length xs ->
    range_fill f (length done) xs (done ++ rest) = done ++ map f xs.
Proof.
  induction xs as [|x xs IH]; intros done rest Hlen; simpl.
  - destruct rest; [done | discriminate].
  - destruct rest as [|r rest]; [discriminate|].
    replace (<[length done := f x]> (done ++ r :: rest))
      with ((done ++ [f x]) ++ rest).
    + replace (S (length done)) with (length (done ++ [f x]))
        by (rewrite length_app; simpl; lia).
      rewrite IH by (simpl in Hlen; lia).
      by rewrite <- app_assoc.
    + rewrite <- app_assoc. simpl.
      rewrite <- (Nat.add_0_r (length done)) at 1.
      by rewrite insert_app_r.
Qed.

(** The loop of [exctractUrls] never stores out of range and yields the
    image of its input. *)
Lemma range_fill_map (f : X -> A) (zero : A) (xs : list X) :
  range_fill f 0 xs (replicate (length xs) zero) = map f xs.
Proof.
  apply (range_fill_app f xs [] (replicate (length xs) zero)).
  apply length_replicate.
Qed.

End RangeLoops.

Lemma exctractUrls_map (body : bytes) :
  exctractUrls body =
  map (fun anchor => {| href := anchor !!! 1%nat; text := anchor !!! 2%nat |})
      (Regexp.FindAllSubmatch anchor_regex body).
Proof. apply range_fill_map. Qed.

(** ** The manager and the two discoveries, one goroutine at a time *)

Section CrawlFacts.
Import Crawl.
Context {P : Platform}.

Lemma range_try_app {A X : Type} (body : X -> error + A) (xs : list X) :
  forall done rest : list A,
    length rest = length xs ->
    match range_try body (length done) xs (done ++ rest) with
    | (out, None) =>
        exists ys, out = done ++ ys /\ Forall2 (fun x y => body x = inr y) xs ys
    | (out, Some e) => out = [] /\ exists x, x ∈ xs /\ body x = inl e
    end.
Proof.
  induction xs as [|x xs IH]; intros done rest Hlen; simpl.
  - destruct rest; [|discriminate].
    exists []. split; [done | constructor].
  - destruct rest as [|r rest]; [discriminate|].
    destruct (body x) as [e|a] eqn:Hx.
    + split; [done|]. exists x. split; [left | done].
    + replace (<[length done := a]> (done ++ r :: rest))
        with ((done ++ [a]) ++ rest).
      2:{ rewrite <- app_assoc. simpl.
          rewrite <- (Nat.add_0_r (length done)) at 1.
          by rewrite insert_app_r. }
      replace (S (length done)) with (length (done ++ [a]))
        by (rewrite length_app; simpl; lia).
      specialize (IH (done ++ [a]) rest).
      destruct (range_try body (length (done ++ [a])) xs ((done ++ [a]) ++ rest))
        as [out [e|]].
      * destruct IH as (-> & y & Hy & He); [simpl in Hlen; lia|].
        split; [done|]. exists y. split; [by right | done].
      * destruct IH as (ys & -> & Hys); [simpl in Hlen; lia|].
        exists (a :: ys). split; [by rewrite <- app_assoc | by constructor].
Qed.

Lemma range_try_total {A X : Type} (f : X -> A) (zero : A) (xs : list X) :
  range_try (fun x => inr (f x)) 0 xs (replicate (length xs) zero)
  = (map f xs, None).
Proof.
  pose proof (range_try_app (fun x => inr (f x)) xs []
                (replicate (length xs) zero) (length_replicate _ _)) as H.
  simpl in H.
  destruct (range_try _ 0 xs _) as [out [e|]].
  - destruct H as (_ & x & _ & Hx). discriminate.
  - destruct H as (ys & -> & Hys). f_equal.
    clear -Hys. induction Hys as [|x y xs ys Hxy _ IH]; [done|].
    simpl. by injection Hxy as <-; rewrite IH.
Qed.

Lemma await_slot_open (fuel : nat) (s : State) :
  getRunningRequests (rm s) < maxConcurrentRequests (rm s) ->
  await_slot fuel s = Some (s, tt).
Proof.
  intros Hopen.
  assert ((maxConcurrentRequests (rm s) <=? getRunningRequests (rm s)) = false)
    as Hb by (apply Z.leb_gt; exact Hopen).
  destruct fuel; simpl; by rewrite Hb.
Qed.

(** With the ceiling reached and no other goroutine to finish a request,
    the polling loop sleeps for ever. *)
Lemma await_slot_closed (fuel : nat) (s : State) :
  maxConcurrentRequests (rm s) <= getRunningRequests (rm s) ->
  await_slot fuel s = None.
Proof.
  revert s. induction fuel as [|fuel IH]; intros s Hfull; simpl;
    rewrite (proj2 (Z.leb_le _ _) Hfull); [done|].
  unfold bind, Sleep, modify. apply IH. exact Hfull.
Qed.

Lemma Request_returns (fuel : nat) (method request_url : bytes) (s : State) :
  getRunningRequests (rm s) < maxConcurrentRequests (rm s) ->
  exists s' r,
    Request fuel method request_url s = Some (s', r) /\
    match url_Parse request_url with
    | inl err => r = inl err /\ s' = s
    | inr u =>
        r = RoundTrip (wire s) method u /\
        totalRequests (rm s') = int64_add (totalRequests (rm s)) 1 /\
        requestsFinished (rm s') = int64_add (requestsFinished (rm s)) 1 /\
        wire s' = wire s ++ [(method, u)]
    end.
Proof.
  intros Hopen. unfold Request, bind.
  rewrite (await_slot_open fuel s Hopen).
  destruct (url_Parse request_url) as [err|u]; simpl.
  - by exists s, (inl err).
  - eexists _, _. split; [reflexivity|]. by simpl.
Qed.

(** C3: a call of [Request] that finds a free slot returns; a URL that
    does not parse yields the error with the state, counters and wire
    included, as it was; a URL that parses adds one to each counter and
    one request to the wire, whatever the transport answers. *)
Theorem C3_request_counts_once (fuel : nat) (method request_url : bytes)
    (s : State) :
  getRunningRequests (rm s) < maxConcurrentRequests (rm s) ->
  exists s' r,
    Request fuel method request_url s = Some (s', r) /\
    match url_Parse request_url with
    | inl err => r = inl err /\ s' = s
    | inr u =>
        r = RoundTrip (wire s) method u /\
        totalRequests (rm s') = int64_add (totalRequests (rm s)) 1 /\
        requestsFinished (rm s') = int64_add (requestsFinished (rm s)) 1 /\
        wire s' = wire s ++ [(method, u)]
    end.
Proof. apply Request_returns. Qed.

(** C10: when the [Head] of the probe fails, [getSizeBytes] returns the
    error together with the size 0; and 0 is the only size that ever comes
    with an error. *)
Theorem C10_failed_probe_returns_zero (fuel : nat) (dist : Distribution)
    (s s' : State) (err : error) :
  Head fuel (dist_url dist) s = Some (s', inl err) ->
  getSizeBytes fuel dist s = Some (s', (0, Some err)) /\
  forall s'' size e,
    getSizeBytes fuel dist s = Some (s'', (size, Some e)) -> size = 0.
Proof.
  intros Hhead. unfold getSizeBytes, bind. rewrite Hhead. simpl.
  split; [done|]. intros s'' size e [= _ <- _]. done.
Qed.

(** C6: behind a free slot, [getDistributions] returns; the result is
    the error of [Get] or of reading the body, with no distributions, or
    else one distribution for each anchor of the page, in order, with
    the anchor's [href] as it stands for URL and its text for name. *)
Theorem C6_distributions_verbatim (fuel : nat) (pkg : Package) (s : State) :
  getRunningRequests (rm s) < maxConcurrentRequests (rm s) ->
  exists s' r,
    Get fuel (url pkg) s = Some (s', r) /\
    getDistributions fuel pkg s =
    Some (s',
          match r with
          | inl err => ([], Some err)
          | inr response =>
              match Body response with
              | inl err => ([], Some err)
              | inr body =>
                  (map (fun a => {| pkg := pkg; dist_name := text a;
                                    dist_url := href a |})
                       (exctractUrls body), None)
              end
          end).
Proof.
  intros Hopen.
  destruct (Request_returns fuel (B "GET") (url pkg) s Hopen)
    as (s' & r & Hreq & _).
  exists s', r. split; [exact Hreq|].
  unfold getDistributions, bind, Get. rewrite Hreq.
  destruct r as [err|response]; [done|].
  destruct (Body response) as [err|body]; [done|].
  unfold ret. by rewrite range_try_total.
Qed.

(** C1, as the code has it: [getPackages] always returns, whatever
    the manager's counters are; it leaves the manager and the clock as
    they were, and puts one [GET] on the wire when the registry URL
    parses and none when it does not. *)
Theorem C1_discovery_is_ungoverned (registry_url : bytes) (s : State) :
  exists s' out,
    getPackages registry_url s = Some (s', out) /\
    rm s' = rm s /\ slept s' = slept s /\
    match url_Parse registry_url with
    | inl err => wire s' = wire s /\ out = ([], Some err)
    | inr u => wire s' = wire s ++ [(B "GET", u)]
    end.
Proof.
  unfold getPackages, http_Get, bind.
  destruct (url_Parse registry_url) as [err|u]; simpl.
  - eexists _, _. split; [reflexivity|]. by simpl.
  - destruct (RoundTrip _ _ _) as [err|response].
    { eexists _, _. split; [reflexivity|]. by simpl. }
    destruct (Body response) as [err|body];
      (eexists _, _; split; [reflexivity|]; by simpl).
Qed.

Lemma getPackages_frame (registry_url : bytes) (s s' : State) out :
  getPackages registry_url s = Some (s', out) -> same_progress s s'.
Proof.
  unfold getPackages, http_Get, bind. intros H.
  destruct (url_Parse registry_url) as [err|u]; simpl in H;
    [by injection H as <- _|].
  destruct (RoundTrip _ _ _) as [err|response]; [by injection H as <- _|].
  destruct (Body response); by injection H as <- _.
Qed.

(** C5: when the index page is fetched and read, [getPackages] returns
    either no error and one package for each anchor, in order, named by
    the anchor's text and located at the anchor's [href] resolved against
    the URL of the request that was answered last; or no package and the
    error of an [href] that does not parse.  The second happens exactly
    when some [href] does not parse. *)
Theorem C5_packages_resolved (registry_url : bytes) (s : State) (u : URL)
    (response : Response URL error) (body : bytes) :
  url_Parse registry_url = inr u ->
  RoundTrip (wire s) (B "GET") u = inr response ->
  Body response = inr body ->
  exists s' packages err,
    getPackages registry_url s = Some (s', (packages, err)) /\
    match err with
    | None =>
        length packages = length (exctractUrls body) /\
        forall i a, exctractUrls body !! i = Some a ->
          exists v, url_Parse (href a) = inr v /\
            packages !! i =
            Some {| name := text a;
                    url := URL_String (ResolveReference (Request_URL response) v) |}
    | Some e =>
        packages = [] /\
        exists a, a ∈ exctractUrls body /\ url_Parse (href a) = inl e
    end /\
    (err = None <->
     forall a, a ∈ exctractUrls body -> exists v, url_Parse (href a) = inr v).
Proof.
  intros Hu Hget Hbody.
  unfold getPackages, http_Get, bind. rewrite Hu. simpl.
  rewrite Hget, Hbody. unfold ret.
  set (step := fun anchorTag : AnchorTag =>
                 match url_Parse (href anchorTag) with
                 | inl err => inl err
                 | inr v =>
                     inr {| name := text anchorTag;
                            url := URL_String
                                     (ResolveReference (Request_URL response) v) |}
                 end).
  pose proof (range_try_app step (exctractUrls body) []
                (replicate (length (exctractUrls body)) zeroPackage)
                (length_replicate _ _)) as H.
  simpl in H.
  destruct (range_try step 0 (exctractUrls body) _) as [packages [e|]].
  - destruct H as (-> & a & Ha & He).
    assert (url_Parse (href a) = inl e) as Hbad.
    { unfold step in He. destruct (url_Parse (href a)); congruence. }
    eexists _, [], (Some e). split; [reflexivity|]. split.
    + split; [done|]. by exists a.
    + split; [discriminate|]. intros Hall.
      destruct (Hall a Ha) as [v Hv]. congruence.
  - destruct H as (ys & -> & Hys).
    assert (forall i a, exctractUrls body !! i = Some a ->
              exists v, url_Parse (href a) = inr v /\
                ys !! i = Some {| name := text a;
                  url := URL_String (ResolveReference (Request_URL response) v) |})
      as Hlookup.
    { intros i a Ha.
      destruct (Forall2_lookup_l _ _ _ _ _ Hys Ha) as (y & Hy & Hstep).
      unfold step in Hstep.
      destruct (url_Parse (href a)) as [|v]; [discriminate|].
      exists v. split; [done|]. congruence. }
    eexists _, ys, None. split; [reflexivity|]. split.
    + split; [symmetry; eapply Forall2_length, Hys | exact Hlookup].
    + split; [|done]. intros _ a Ha.
      apply list_elem_of_lookup in Ha as [i Hi].
      destruct (Hlookup i a Hi) as (v & Hv & _). by exists v.
Qed.

(** *** The sink *)

Lemma records_WriteByte (c : ascii) (w : Sink) :
  records (WriteByte c w) = records w.
Proof. unfold WriteByte. by destruct (_ <=? _)%nat. Qed.

Lemma records_WriteString (x : bytes) (w : Sink) :
  records (WriteString x w) = records w.
Proof.
  unfold WriteString.
  repeat (destruct (_ <=? _)%nat || destruct (_ =? _)%nat); reflexivity.
Qed.

Lemma records_write_quoted (field : bytes) :
  forall pending w, records (write_quoted pending field w) = records w.
Proof.
  induction field as [|c field IH]; intros pending w; simpl.
  - apply records_WriteString.
  - repeat case_match; rewrite IH;
      by rewrite ?records_WriteByte, ?records_WriteString.
Qed.

Lemma records_write_field (field : bytes) (w : Sink) :
  records (write_field field w) = records w.
Proof.
  unfold write_field. case_match.
  - by rewrite records_WriteByte, records_write_quoted, records_WriteByte.
  - apply records_WriteString.
Qed.

Lemma records_write_fields (record : list bytes) :
  forall n w, records (write_fields n record w) = records w.
Proof.
  induction record as [|field record IH]; intros n w; simpl; [done|].
  rewrite IH, records_write_field. destruct n; [done|].
  apply records_WriteByte.
Qed.

Lemma records_Write (record : list bytes) (w : Sink) :
  records (Write record w) = records w ++ [record].
Proof.
  unfold Write. cbn [records].
  by rewrite records_WriteByte, records_write_fields.
Qed.

Lemma held_refl (w : Sink) : held w w.
Proof. split; [exists []; by rewrite app_nil_r | done]. Qed.

Lemma held_trans (w1 w2 w3 : Sink) : held w1 w2 -> held w2 w3 -> held w1 w3.
Proof.
  intros [[a Ha] Hf] [[a' Ha'] Hf'].
  split; [exists (a ++ a'); by rewrite Ha', Ha, app_assoc|].
  intros Hlen. rewrite Hf' by done. apply Hf.
  rewrite Ha', length_app in Hlen. lia.
Qed.

Lemma held_WriteByte (c : ascii) (w : Sink) : held w (WriteByte c w).
Proof.
  unfold held, stream, WriteByte, Flush, Available, Buffered.
  generalize bufio_size. intros size.
  destruct (_ <=? _)%nat eqn:Hfull; cbn [file buffered set_buffered file_Write].
  - apply Nat.leb_le in Hfull.
    split; [by exists [c]|]. rewrite !length_app. cbn [length]. intros. lia.
  - split; [exists [c]; by rewrite app_assoc | done].
Qed.

Lemma held_WriteString (x : bytes) (w : Sink) : held w (WriteString x w).
Proof.
  unfold held, stream, WriteString, Flush, Available, Buffered.
  generalize bufio_size. intros size.
  destruct (length x <=? _)%nat eqn:Hfit;
    cbn [file buffered set_buffered file_Write].
  { split; [exists x; by rewrite app_assoc | done]. }
  apply Nat.leb_gt in Hfit.
  destruct (length (buffered w) =? 0)%nat eqn:Hempty;
    cbn [file buffered set_buffered file_Write].
  { apply Nat.eqb_eq in Hempty.
    destruct (buffered w); [|discriminate]. cbn [length] in Hfit.
    split; [exists x; by rewrite !app_nil_r|].
    rewrite app_nil_r, length_app. intros. lia. }
  set (n := (size - length (buffered w))%nat) in *.
  assert ((file w ++ buffered w) ++ x
          = ((file w ++ buffered w ++ take n x) ++ drop n x)) as Hsplit.
  { rewrite <- !app_assoc. by rewrite take_drop. }
  assert (size < length ((file w ++ buffered w ++ take n x) ++ drop n x))%nat
    as Hlong.
  { rewrite <- Hsplit, !length_app. lia. }
  destruct (length (drop n x) <=? _)%nat;
    cbn [file buffered set_buffered file_Write app];
    rewrite ?app_nil_r; (split; [by exists x|]); intros; lia.
Qed.

Lemma held_write_quoted (field : bytes) :
  forall pending w, held w (write_quoted pending field w).
Proof.
  induction field as [|c field IH]; intros pending w; simpl.
  - apply held_WriteString.
  - repeat case_match.
    + eapply held_trans; [|apply IH].
      eapply held_trans; apply held_WriteString.
    + eapply held_trans; [|apply IH].
      eapply held_trans; [apply held_WriteString | apply held_WriteByte].
    + apply IH.
Qed.

Lemma held_write_field (field : bytes) (w : Sink) : held w (write_field field w).
Proof.
  unfold write_field. case_match; [|apply held_WriteString].
  eapply held_trans; [apply held_WriteByte|].
  eapply held_trans; [apply held_write_quoted | apply held_WriteByte].
Qed.

Lemma held_write_fields (record : list bytes) :
  forall n w, held w (write_fields n record w).
Proof.
  induction record as [|field record IH]; intros n w; simpl;
    [apply held_refl|].
  eapply held_trans; [|apply IH].
  eapply held_trans; [|apply held_write_field].
  destruct n; [apply held_refl | apply held_WriteByte].
Qed.

(** [csv.Writer.Write] extends the stream and leaves the file alone as
    long as the stream fits the buffer. *)
Lemma held_Write (record : list bytes) (w : Sink) : held w (Write record w).
Proof.
  apply (held_trans _ (WriteByte newline (write_fields 0 record w))).
  - eapply held_trans; [apply held_write_fields | apply held_WriteByte].
  - unfold Write. generalize (WriteByte newline (write_fields 0 record w)).
    intros w'. split; [|done].
    exists []. unfold stream. cbn [file buffered]. by rewrite app_nil_r.
Qed.

(** *** What a request leaves alone *)

Lemma await_slot_inv (fuel : nat) (s s' : State) :
  await_slot fuel s = Some (s', tt) ->
  s' = s /\ getRunningRequests (rm s) < maxConcurrentRequests (rm s).
Proof.
  intros H.
  destruct (Z_lt_le_dec (getRunningRequests (rm s)) (maxConcurrentRequests (rm s)))
    as [Hopen|Hfull].
  - rewrite (await_slot_open fuel s Hopen) in H. by injection H as <-.
  - by rewrite (await_slot_closed fuel s Hfull) in H.
Qed.

(** A call of [Request] that returns found a free slot on its first
    look. *)
Lemma Request_inv (fuel : nat) (method request_url : bytes) (s s' : State)
    (r : error + Response URL error) :
  Request fuel method request_url s = Some (s', r) ->
  getRunningRequests (rm s) < maxConcurrentRequests (rm s) /\
  same_progress s s' /\
  match url_Parse request_url with
  | inl err => r = inl err /\ s' = s
  | inr u => r = RoundTrip (wire s) method u
  end.
Proof.
  unfold Request, bind. intros H.
  destruct (await_slot fuel s) as [[s0 []]|] eqn:Hw; [|discriminate].
  apply await_slot_inv in Hw as [-> Hopen].
  split; [exact Hopen|].
  destruct (url_Parse request_url) as [err|u]; simpl in H;
    injection H as <- <-; by repeat split.
Qed.

(** *** One turn of the probing loop *)

Lemma probe_inv (fuel : nat) (pkg : Package) (d : Distribution) (s s' : State)
    (p : option error) :
  probe fuel pkg d s = Some (s', p) ->
  exists s1 r,
    Head fuel (dist_url d)
         (set_distributionsFound (fun n => uint32_add n 1) s) = Some (s1, r) /\
    match r with
    | inl e =>
        p = Some e /\
        s' = set_totalSizeBytes (fun n => uint64_add n (uint64_of_int 0)) s1
    | inr response =>
        let size := int_of_int64 (ContentLength response) in
        p = None /\
        s' = set_writer (Write [name pkg; dist_name d; Sprintf_d size])
               (set_totalSizeBytes
                  (fun n => uint64_add n (uint64_of_int size)) s1)
    end.
Proof.
  unfold probe, getSizeBytes, bind, modify. intros H.
  destruct (Head fuel (dist_url d) _) as [[s1 r]|]; [|discriminate].
  exists s1, r. split; [done|].
  destruct r as [e|response]; simpl in H; by injection H as <- <-.
Qed.

Lemma wrap_int64_range (z : Z) : in_int64 (wrap_int64 z).
Proof.
  unfold in_int64, wrap_int64.
  pose proof (Z.mod_pos_bound (z + 2 ^ 63) (2 ^ 64) eq_refl). lia.
Qed.

Lemma getSizeBytes_inv (fuel : nat) (d : Distribution) (s s1 : State)
    (size : Z) (err : option error) :
  getSizeBytes fuel d s = Some (s1, (size, err)) ->
  in_int64 size /\ same_progress s s1 /\
  exists r, Head fuel (dist_url d) s = Some (s1, r) /\
    match r with
    | inl e => err = Some e /\ size = 0
    | inr response =>
        err = None /\ size = int_of_int64 (ContentLength response)
    end.
Proof.
  unfold getSizeBytes, bind. intros H.
  destruct (Head fuel (dist_url d) s) as [[s0 r]|] eqn:Hhead; [|discriminate].
  apply Request_inv in Hhead as Hinv. destruct Hinv as (_ & Hsame & _).
  destruct r as [e|response]; simpl in H; injection H as <- <- <-.
  - split; [by compute|]. split; [done|]. by eexists.
  - split; [apply wrap_int64_range|]. split; [done|]. by eexists.
Qed.

(** C9, as the code has it: each turn of the probing loop adds
    [uint64(size)] to [totalSizeBytes] modulo 2^64 and only then looks at
    the error.  After a failed probe the counter is what it was.  After a
    successful probe of negative size the counter is its old value plus
    2^64 + size modulo 2^64, which differs from the old value and is
    below it exactly when the old value is at least the absolute value of
    the size. *)
Theorem C9_total_added_before_check (fuel : nat) (pkg : Package)
    (d : Distribution) (s s' : State) (p : option error) :
  probe fuel pkg d s = Some (s', p) ->
  in_uint64 (totalSizeBytes s) ->
  exists s1 size,
    getSizeBytes fuel d (set_distributionsFound (fun n => uint32_add n 1) s)
    = Some (s1, (size, p)) /\
    totalSizeBytes s' = uint64_add (totalSizeBytes s) (uint64_of_int size) /\
    (p <> None -> totalSizeBytes s' = totalSizeBytes s) /\
    (p = None -> size < 0 ->
     totalSizeBytes s' = (totalSizeBytes s + (2 ^ 64 + size)) mod 2 ^ 64 /\
     totalSizeBytes s' <> totalSizeBytes s /\
     (totalSizeBytes s' < totalSizeBytes s <-> - size <= totalSizeBytes s)).
Proof.
  intros Hprobe Hrange. unfold probe, bind, modify in Hprobe.
  destruct (getSizeBytes fuel d _) as [[s1 [size err]]|] eqn:Hsize;
    [|discriminate].
  apply getSizeBytes_inv in Hsize as Hinv.
  destruct Hinv as (Hsz & (_ & _ & _ & Htot & _) & r & _ & Hr).
  simpl in Htot.
  assert (p = err /\
          totalSizeBytes s' = uint64_add (totalSizeBytes s) (uint64_of_int size))
    as [-> Hadd].
  { destruct err; simpl in Hprobe; injection Hprobe as <- <-;
      simpl; by rewrite Htot. }
  exists s1, size. split; [done|]. split; [exact Hadd|].
  rewrite Hadd. unfold uint64_add, uint64_of_int, wrap_uint64.
  unfold in_uint64 in Hrange. unfold in_int64 in Hsz.
  change (2 ^ 64) with 18446744073709551616 in *.
  change (2 ^ 63) with 9223372036854775808 in *.
  split.
  - intros Herr. destruct r as [e|response]; destruct Hr as [-> ->]; [|done].
    rewrite Z.mod_0_l by done. rewrite Z.add_0_r. by apply Z.mod_small.
  - intros _ Hneg. Z.to_euclidean_division_equations. lia.
Qed.

(** *** The rows of a run *)

Lemma getDistributions_frame (fuel : nat) (pkg : Package) (s s' : State) out :
  getDistributions fuel pkg s = Some (s', out) -> same_progress s s'.
Proof.
  unfold getDistributions, bind, Get. intros H.
  destruct (Request fuel (B "GET") (url pkg) s) as [[s1 r]|] eqn:Hreq;
    [|discriminate].
  apply Request_inv in Hreq as (_ & Hsame & _).
  destruct r as [e|response]; [by injection H as <- _|].
  destruct (Body response); by injection H as <- _.
Qed.

Lemma probe_held (fuel : nat) (pkg : Package) (d : Distribution) (s s' : State)
    (p : option error) :
  probe fuel pkg d s = Some (s', p) -> held (writer s) (writer s').
Proof.
  intros H. apply probe_inv in H as (s1 & r & Hhead & Hr).
  apply Request_inv in Hhead as (_ & (_ & _ & _ & _ & Hw) & _).
  simpl in Hw. rewrite <- Hw.
  destruct r as [e|response]; destruct Hr as [_ ->].
  - apply held_refl.
  - apply held_Write.
Qed.

Lemma probe_all_held (fuel : nat) (pkg : Package) (ds : list Distribution) :
  forall (s s' : State) (p : option error),
    probe_all fuel pkg ds s = Some (s', p) -> held (writer s) (writer s').
Proof.
  induction ds as [|d ds IH]; intros s s' p H; simpl in H.
  - injection H as <- <-. apply held_refl.
  - unfold bind in H.
    destruct (probe fuel pkg d s) as [[s1 p1]|] eqn:Hp; [|discriminate].
    apply probe_held in Hp.
    destruct p1; [by injection H as <- <-|].
    eapply held_trans; [exact Hp | by eapply IH].
Qed.

Lemma crawl_package_held (fuel : nat) (pkg : Package) (s s' : State)
    (p : option error) :
  crawl_package fuel pkg s = Some (s', p) -> held (writer s) (writer s').
Proof.
  unfold crawl_package, bind. intros H.
  destruct (getDistributions fuel pkg s) as [[s1 [ds err]]|] eqn:Hd;
    [|discriminate].
  apply getDistributions_frame in Hd as (_ & _ & _ & _ & Hw). rewrite <- Hw.
  destruct err; [injection H as <- <-; apply held_refl|].
  destruct (probe_all fuel pkg ds s1) as [[s2 p2]|] eqn:Hp; [|discriminate].
  apply probe_all_held in Hp.
  destruct p2; simpl in H; by injection H as <- <-.
Qed.

Lemma launch_all_held (fuel : nat) (packages : list Package) :
  forall (s s' : State) (p : option error),
    launch_all fuel packages s = Some (s', p) -> held (writer s) (writer s').
Proof.
  induction packages as [|pkg packages IH]; intros s s' p H; simpl in H.
  - injection H as <- <-. apply held_refl.
  - unfold bind, modify in H.
    destruct (crawl_package fuel pkg _) as [[s1 p1]|] eqn:Hc; [|discriminate].
    apply crawl_package_held in Hc. simpl in Hc.
    destruct p1; [by injection H as <- <-|].
    simpl in H. eapply held_trans; [exact Hc|].
    by apply IH in H.
Qed.

(** X13: whatever the registry serves, under the schedule of [launch_all],
    which runs each goroutine to its end as soon as it is launched: as
    long as header and rows together fit the 4096 bytes of the writer's
    buffer, the run of [main] ends with nothing in the file. *)
Lemma short_output_never_reaches_file (fuel : nat) (s' : State)
    (p : option error) :
  main fuel boot = Some (s', p) ->
  (length (stream (writer s')) <= bufio_size)%nat ->
  file (writer s') = [].
Proof.
  unfold main, bind, modify. intros H.
  destruct (getPackages _ boot) as [[s1 [packages err]]|] eqn:Hg; [|discriminate].
  apply getPackages_frame in Hg as (_ & _ & _ & _ & Hw). simpl in Hw.
  destruct err; [injection H as <- <-; by rewrite Hw|].
  cbn [set_writer set_rm set_tasksGroup set_packagesScraped
       set_distributionsFound set_totalSizeBytes writer] in H.
  destruct (launch_all fuel packages _) as [[s2 p2]|] eqn:Hl; [|discriminate].
  apply launch_all_held in Hl. cbn [writer] in Hl.
  pose proof (held_trans _ _ _ (held_Write _ NewWriter) Hl) as [_ Hkeep].
  destruct p2; cbn in H; [injection H as <- <-; exact Hkeep|].
  unfold tasksGroup_Wait in H.
  destruct (tasksGroup s2 =? 0); [|discriminate].
  injection H as <- <-. exact Hkeep.
Qed.

(** C8, as the code has it: the records that the goroutine of a package
    hands to the writer (lines 227-235) are, in the order of the page, one
    for each distribution up to the first whose probe fails; the size field
    of each is the decimal form of the length that the answer to the [HEAD]
    of its distribution reports, converted to [int]: the raw value, which
    need not be positive.  The distribution whose probe fails and those
    behind it get no record. *)
Theorem C8_rows_carry_reported_length (fuel : nat) (pkg : Package)
    (ds : list Distribution) :
  forall (s s' : State) (p : option error),
    probe_all fuel pkg ds s = Some (s', p) ->
    exists responses : list (Response URL error),
      (length responses <= length ds)%nat /\
      (p = None <-> length responses = length ds) /\
      Forall2 answers_head (take (length responses) ds) responses /\
      records (writer s')
      = records (writer s)
        ++ zip_with (fun d response =>
                       row_of pkg d (int_of_int64 (ContentLength response)))
                    ds responses.
Proof.
  induction ds as [|d ds IH]; intros s s' p H; simpl in H.
  - injection H as <- <-. exists []. simpl.
    split; [lia|]. split; [done|]. split; [constructor|].
    by rewrite app_nil_r.
  - unfold bind in H.
    destruct (probe fuel pkg d s) as [[s1 p1]|] eqn:Hp; [|discriminate].
    apply probe_inv in Hp as (s0 & r & Hhead & Hr).
    apply Request_inv in Hhead as (_ & (_ & _ & _ & _ & Hw) & Hparse).
    simpl in Hw.
    destruct r as [e|response]; destruct Hr as [-> ->].
    + injection H as <- <-. exists []. simpl.
      split; [lia|]. split; [done|]. split; [constructor|].
      by rewrite app_nil_r, Hw.
    + apply IH in H as (responses & Hlen & Hall & Hanswers & Hrows).
      exists (response :: responses). simpl.
      split; [lia|]. split; [rewrite Hall; lia|]. split.
      * constructor; [|done].
        destruct (url_Parse (dist_url d)) as [err|u] eqn:Hu;
          [by destruct Hparse|].
        simpl in Hparse. by exists (wire s), u.
      * rewrite Hrows. unfold set_writer, set_totalSizeBytes. cbn [writer].
        rewrite records_Write, Hw. unfold row_of.
        by rewrite <- app_assoc.
Qed.

End CrawlFacts.

(** ** The two counters under interleaving *)

Section InterleavingFacts.
Import Crawl Interleaving.
Context {P : Platform}.

Lemma wrap_int64_small (z : Z) : in_int64 z -> wrap_int64 z = z.
Proof.
  unfold in_int64, wrap_int64. intros Hz.
  rewrite Z.mod_small; lia.
Qed.

Lemma wrap_int64_eqm (z : Z) : exists k, wrap_int64 z = z + k * 2 ^ 64.
Proof.
  exists (- ((z + 2 ^ 63) / 2 ^ 64)). unfold wrap_int64.
  pose proof (Z.div_mod (z + 2 ^ 63) (2 ^ 64)). lia.
Qed.

Lemma wrap_int64_shift (z k : Z) : wrap_int64 (z + k * 2 ^ 64) = wrap_int64 z.
Proof.
  unfold wrap_int64. f_equal.
  replace (z + k * 2 ^ 64 + 2 ^ 63) with (z + 2 ^ 63 + k * 2 ^ 64) by lia.
  apply Z_mod_plus_full.
Qed.

Lemma flying_bounds (ts : list pc) : 0 <= flying ts <= Z.of_nat (length ts).
Proof.
  induction ts as [|t ts IH]; simpl; [lia|].
  unfold flying in *. simpl. destruct (in_flight t); simpl; lia.
Qed.

Lemma flying_insert (ts : list pc) (i : nat) (t t' : pc) :
  ts !! i = Some t ->
  flying (<[i := t']> ts)
  = flying ts - Z.b2z (in_flight t) + Z.b2z (in_flight t').
Proof.
  revert i. induction ts as [|x ts IH]; intros i Hi; [done|].
  destruct i as [|i]; simpl in *.
  - injection Hi as ->. unfold flying. simpl. lia.
  - unfold flying in *. simpl. rewrite (IH i Hi). lia.
Qed.

(** A goroutine that is not in flight before its action and is in
    flight after it has just added to [totalRequests]; and so on. *)
Lemma thread_step_running (sh sh' : Shared) (t t' : pc) :
  thread_step sh t sh' t' ->
  getRunningRequests (manager sh')
  = wrap_int64 (getRunningRequests (manager sh)
                - Z.b2z (in_flight t) + Z.b2z (in_flight t')).
Proof.
  assert (forall m, getRunningRequests m
                    = wrap_int64 (getRunningRequests m - 0 + 0)) as Hsame.
  { intros m. unfold getRunningRequests, int64_sub.
    rewrite Z.sub_0_r, Z.add_0_r.
    symmetry. apply wrap_int64_small, wrap_int64_range. }
  destruct 1; simpl; try apply Hsame;
    unfold getRunningRequests, int64_sub; simpl; unfold int64_add.
  - destruct (wrap_int64_eqm (totalRequests (manager sh) + 1)) as [k ->].
    destruct (wrap_int64_eqm (totalRequests (manager sh)
                              - requestsFinished (manager sh))) as [k' ->].
    rewrite <- (wrap_int64_shift (_ - 0 + 1) (- k')).
    rewrite <- (wrap_int64_shift (_ - requestsFinished _) (- k)).
    f_equal. lia.
  - replace (wrap_int64 (totalRequests (manager sh)
                         - requestsFinished (manager sh)) - 1 + 1)
      with (wrap_int64 (totalRequests (manager sh)
                        - requestsFinished (manager sh))) by lia.
    symmetry. apply wrap_int64_small, wrap_int64_range.
  - destruct (wrap_int64_eqm (requestsFinished (manager sh) + 1)) as [k ->].
    destruct (wrap_int64_eqm (totalRequests (manager sh)
                              - requestsFinished (manager sh))) as [k' ->].
    rewrite <- (wrap_int64_shift (_ - 1 + 0) (- k')).
    rewrite <- (wrap_int64_shift (totalRequests _ - _) k).
    f_equal. lia.
Qed.

Lemma step_length (c c' : Config) :
  step c c' -> length (threads c') = length (threads c).
Proof. destruct 1. simpl. apply length_insert. Qed.

Lemma reachable_length (n : nat) (c : Config) :
  reachable n c -> length (threads c) = n.
Proof.
  unfold reachable. revert c.
  apply (rtc_ind_r (fun c => length (threads c) = n)).
  - simpl. apply length_replicate.
  - intros c c' _ Hstep IH. by rewrite (step_length _ _ Hstep).
Qed.

Lemma flying_idle (n : nat) : flying (replicate n Idle) = 0.
Proof. induction n as [|n IH]; [done|]. unfold flying in *. simpl. lia. Qed.

(** The value of [issued - completed] is the number of requests in
    flight. *)
Lemma running_is_flying (n : nat) (c : Config) :
  Z.of_nat n < 2 ^ 63 ->
  reachable n c ->
  getRunningRequests (manager (shared c)) = flying (threads c).
Proof.
  intros Hn. unfold reachable. revert c.
  apply (rtc_ind_r
           (fun c => getRunningRequests (manager (shared c)) = flying (threads c))).
  - simpl. by rewrite flying_idle.
  - intros c c' Hc Hstep IH.
    pose proof (reachable_length n c Hc) as Hlen.
    destruct Hstep as [c i t sh' t' Hi Hstep]. simpl in *.
    rewrite (thread_step_running _ _ _ _ Hstep), IH.
    rewrite <- (flying_insert _ _ _ t' Hi).
    apply wrap_int64_small.
    pose proof (flying_bounds (<[i := t']> (threads c))) as Hb.
    rewrite length_insert in Hb. unfold in_int64. lia.
Qed.

(** C2, as the code has it: with fewer than 2^63 goroutines, in every
    reachable state [issued - completed] is the number of requests between
    the two additions, hence not negative; and a call of
    [getRunningRequests] whose two loads no other goroutine separates
    changes nothing and returns exactly that number. *)
Theorem C2_running_count_never_negative (n : nat) (c : Config) :
  Z.of_nat n < 2 ^ 63 ->
  reachable n c ->
  0 <= getRunningRequests (manager (shared c)) /\
  getRunningRequests (manager (shared c)) = flying (threads c) /\
  forall m u sh1 p1 sh2 p2,
    thread_step (shared c) (LoadTotal m u) sh1 p1 ->
    thread_step sh1 p1 sh2 p2 ->
    sh2 = shared c /\
    p2 = Compare m u (getRunningRequests (manager (shared c))) /\
    p2 = Compare m u (flying (threads c)) /\
    exists running, p2 = Compare m u running /\ 0 <= running.
Proof.
  intros Hn Hreach.
  pose proof (running_is_flying n c Hn Hreach) as Hrun.
  pose proof (flying_bounds (threads c)) as Hb.
  split; [lia|]. split; [exact Hrun|].
  intros m u sh1 p1 sh2 p2 H1 H2.
  inversion H1; subst. inversion H2; subst.
  change (int64_sub (totalRequests (manager (shared c)))
                    (requestsFinished (manager (shared c))))
    with (getRunningRequests (manager (shared c))).
  split; [done|]. split; [done|].
  split; [by rewrite Hrun|].
  eexists. split; [reflexivity|]. lia.
Qed.

Lemma solo_step (sh sh' : Shared) (t t' : pc) :
  thread_step sh t sh' t' -> solo (sh, t) (sh', t').
Proof. done. Qed.

(** X8: a call of [Request] that returns in the sequential reading is
    one goroutine taking the atomic actions of the interleaving view with
    nobody in between, from its first load to its return, with the same
    manager, wire and result. *)
Lemma Request_as_steps (fuel : nat) (method request_url : bytes)
    (s s' : State) (r : error + Response URL error) :
  Request fuel method request_url s = Some (s', r) ->
  rtc solo ({| manager := rm s; sent := wire s |}, LoadTotal method request_url)
           ({| manager := rm s'; sent := wire s' |}, Returned r).
Proof.
  intros H. pose proof H as Hinv.
  apply Request_inv in Hinv as (Hopen & _ & _).
  unfold Request, bind in H. rewrite (await_slot_open fuel s Hopen) in H.
  set (sh := {| manager := rm s; sent := wire s |}).
  eapply rtc_l; [apply solo_step, step_load_total|].
  eapply rtc_l; [apply solo_step, step_load_finished|].
  eapply rtc_l; [apply solo_step, step_free; exact Hopen|].
  destruct (url_Parse request_url) as [err|u] eqn:Hu.
  - injection H as <- <-.
    apply rtc_once, solo_step. by apply step_parse_error.
  - eapply rtc_l; [by apply solo_step, step_parse|].
    eapply rtc_l; [apply solo_step, step_add_total|].
    eapply rtc_l; [apply solo_step, step_send|].
    simpl in H. injection H as <- <-.
    apply rtc_once, solo_step, step_add_finished.
Qed.

End InterleavingFacts.

(** ** The anchor pattern on pages with one anchor to a line *)

Section MatcherFacts.
Import Regexp Page.

Lemma match_literal (p : bytes) (k : pattern) (s : bytes) :
  match_here (map Ch p ++ k) (p ++ s) = match_here k s.
Proof.
  induction p as [|c p IH]; simpl; [done|].
  by rewrite Ascii.eqb_refl.
Qed.

Lemma match_literal_fails (p : bytes) (k : pattern) (s : bytes) :
  starts_with p s = false -> match_here (map Ch p ++ k) s = None.
Proof.
  revert s. induction p as [|c p IH]; intros s H; simpl in *; [done|].
  destruct s as [|x s]; [done|].
  destruct (Ascii.eqb x c); [|done]. by apply IH.
Qed.

(** A star that runs to the end of its class, with a continuation that
    accepts nowhere inside the run, consumes exactly the run. *)
Lemma star_exact (cls : ascii -> bool) (k : bytes -> option outcome)
    (a s : bytes) :
  forallb cls a = true ->
  match s with [] => True | x :: _ => cls x = false end ->
  (forall a1 a2, a = a1 ++ a2 -> a2 <> [] -> k (a2 ++ s) = None) ->
  star cls k (a ++ s) = (o ← k s; Some (a, o)).
Proof.
  induction a as [|x a IH]; intros Hcls Hend Hinside.
  - simpl. destruct s as [|y s]; [done|]. simpl. by rewrite Hend.
  - simpl in Hcls. apply andb_prop in Hcls as [Hx Hcls].
    simpl. rewrite Hx, IH; [|done|done|].
    + destruct (k s) as [o|] eqn:Hk; simpl; [done|].
      pose proof (Hinside [] (x :: a) eq_refl ltac:(done)) as Hhere.
      simpl in Hhere. by rewrite Hhere.
    + intros a1 a2 -> Ha2. by apply (Hinside (x :: a1) a2).
Qed.

(** A star whose continuation accepts at no later place within the
    class leaves everything to the continuation where it stands. *)
Lemma star_empty (cls : ascii -> bool) (k : bytes -> option outcome)
    (s : bytes) :
  (forall a rest, s = a ++ rest -> a <> [] -> forallb cls a = true ->
                  k rest = None) ->
  star cls k s = (o ← k s; Some ([], o)).
Proof.
  induction s as [|x s IH]; intros Hlater; [done|].
  simpl. destruct (cls x) eqn:Hx; [|done].
  rewrite IH.
  - rewrite (Hlater [x] s); [done|done|done|]. simpl. by rewrite Hx.
  - intros a rest -> Ha Hcls. apply (Hlater (x :: a) rest); [done|done|].
    simpl. by rewrite Hx.
Qed.

Lemma star_cons (cls : ascii -> bool) (k : bytes -> option outcome)
    (x : ascii) (s : bytes) :
  star cls k (x :: s) =
  if cls x then
    match star cls k s with
    | Some (taken, o) => Some (x :: taken, o)
    | None => o ← k (x :: s); Some ([], o)
    end
  else o ← k (x :: s); Some ([], o).
Proof. done. Qed.

Lemma closes_starts_with (s : bytes) :
  closes s = false -> starts_with closer s = false.
Proof.
  destruct s as [|x s]; [done|]. simpl.
  unfold not_char. destruct (Ascii.eqb x "<"); simpl; done.
Qed.

(** Behind a [>] whose text does not run into a closer, the rest of the
    pattern fails. *)
Lemma tail_text_fails (s : bytes) :
  closes s = false ->
  star (not_char "<"%char) (match_here (map Ch closer)) s = None.
Proof.
  induction s as [|x s IH]; intros H; [done|].
  rewrite star_cons.
  pose proof (closes_starts_with _ H) as Hhere.
  rewrite <- (app_nil_r (map Ch closer)).
  rewrite (match_literal_fails closer [] (x :: s) Hhere).
  simpl in H. destruct (not_char "<"%char x); [|done].
  rewrite app_nil_r. by rewrite (IH H).
Qed.

Lemma tail_fails (x : ascii) (s : bytes) :
  x <> ">"%char \/ closes s = false ->
  match_here tail_regex (x :: s) = None.
Proof.
  intros H. unfold tail_regex.
  change (match_here ([Ch ">"%char; Group (not_char "<"%char)] ++ lit "</a>")
                     (x :: s))
    with (if Ascii.eqb x ">" then
            '(taken, (gs, rest)) ←
              star (not_char "<"%char) (match_here (map Ch closer)) s;
            Some (taken :: gs, rest)
          else None).
  destruct (Ascii.eqb x ">") eqn:Hx; [|done].
  apply Ascii.eqb_eq in Hx.
  destruct H as [H|H]; [done|].
  by rewrite (tail_text_fails s H).
Qed.

(** Behind a [>], text free of [<] and a closer are what the rest of the
    pattern takes. *)
Lemma tail_matches (t rest : bytes) :
  free_of "<"%char t = true ->
  match_here tail_regex (">"%char :: t ++ closer ++ rest) = Some ([t], rest).
Proof.
  intros Ht.
  change (match_here tail_regex (">"%char :: t ++ closer ++ rest))
    with ('(taken, (gs, rest)) ←
            star (not_char "<"%char) (match_here (map Ch closer ++ []))
                 (t ++ closer ++ rest);
          Some (taken :: gs, rest)).
  rewrite star_exact; [|exact Ht|done|].
  - by rewrite match_literal.
  - intros a1 a2 -> Ha2. destruct a2 as [|y a2]; [done|].
    apply match_literal_fails.
    unfold free_of in Ht. rewrite forallb_app in Ht.
    apply andb_prop in Ht as [_ Ht]. simpl in Ht.
    apply andb_prop in Ht as [Hy _]. unfold not_char in Hy.
    apply negb_true_iff in Hy. simpl. by rewrite Hy.
Qed.

(** *** Lines *)

Lemma starts_with_before_newline (p q rest : bytes) :
  free_of newline p = true ->
  starts_with p (q ++ newline :: rest) = starts_with p q.
Proof.
  revert q. induction p as [|c p IH]; intros q Hp; [done|].
  simpl in Hp. apply andb_prop in Hp as [Hc Hp].
  destruct q as [|x q]; cbn [starts_with app].
  - unfold not_char in Hc. apply negb_true_iff in Hc.
    rewrite Ascii.eqb_sym in Hc. by rewrite Hc.
  - by rewrite IH.
Qed.

Lemma occurs_cons (p : bytes) (x : ascii) (s : bytes) :
  occurs p (x :: s) = false ->
  starts_with p (x :: s) = false /\ occurs p s = false.
Proof. simpl. intros H. by apply orb_false_elim in H. Qed.

Lemma closes_skip (a rest : bytes) :
  free_of "<"%char a = true -> closes (a ++ rest) = closes rest.
Proof.
  induction a as [|x a IH]; intros Ha; [done|].
  simpl in Ha. apply andb_prop in Ha as [Hx Ha].
  simpl. rewrite Hx. by apply IH.
Qed.

Lemma closes_quiet (q rest : bytes) :
  occurs closer q = false -> closes rest = false ->
  closes (q ++ newline :: rest) = false.
Proof.
  intros Hq Hrest. induction q as [|x q IH]; [done|].
  apply occurs_cons in Hq as [Hhere Hq].
  change (closes ((x :: q) ++ newline :: rest))
    with (if not_char "<"%char x then closes (q ++ newline :: rest)
          else starts_with closer ((x :: q) ++ newline :: rest)).
  destruct (not_char "<"%char x); [by apply IH|].
  by rewrite starts_with_before_newline.
Qed.

Lemma quiet_inv (q : bytes) :
  quiet q = true ->
  free_of newline q = true /\ occurs opener q = false /\ occurs closer q = false.
Proof.
  unfold quiet. intros H.
  apply andb_prop in H as [H Hc]. apply andb_prop in H as [Hn Ho].
  apply negb_true_iff in Hc, Ho. done.
Qed.

Lemma anchor_does_not_close (h t rest : bytes) :
  closes (anchor_bytes h t ++ rest) = false.
Proof. done. Qed.

Lemma render_anchor (lead h t trail : bytes) (page : list line) :
  render (Anchor lead h t trail :: page)
  = lead ++ anchor_bytes h t ++ trail ++ newline :: render page.
Proof.
  unfold render. cbn [map concat render_line]. by rewrite <- !app_assoc.
Qed.

Lemma render_other (content : bytes) (page : list line) :
  render (Other content :: page) = content ++ newline :: render page.
Proof.
  unfold render. cbn [map concat render_line]. by rewrite <- !app_assoc.
Qed.

Lemma well_formed_anchor_inv (lead h t trail : bytes) :
  well_formed_line (Anchor lead h t trail) = true ->
  free_of "<"%char lead = true /\ free_of dquote h = true /\
  free_of "<"%char t = true /\ free_of ">"%char t = true /\
  quiet trail = true.
Proof.
  unfold well_formed_line. intros H.
  repeat (apply andb_prop in H as [H ?]). done.
Qed.

Lemma closes_render (page : list line) :
  well_formed page = true -> closes (render page) = false.
Proof.
  induction page as [|l page IH]; intros Hwf; [done|].
  cbn [well_formed forallb] in Hwf. apply andb_prop in Hwf as [Hl Hwf].
  specialize (IH Hwf).
  destruct l as [lead h t trail|content].
  - apply well_formed_anchor_inv in Hl as (Hlead & _).
    rewrite render_anchor, closes_skip by done.
    apply anchor_does_not_close.
  - apply quiet_inv in Hl as (_ & _ & Hc).
    rewrite render_other. by apply closes_quiet.
Qed.

Lemma line_tail_free_cons (x : ascii) (s : bytes) :
  match_here tail_regex (x :: s) = None ->
  line_tail_free s -> line_tail_free (x :: s).
Proof.
  intros Hhere Hs a rest Heq Ha.
  destruct a as [|y a]; simpl in Heq.
  - by subst rest.
  - injection Heq as -> ->. simpl in Ha.
    apply andb_prop in Ha as [_ Ha]. by apply (Hs a rest).
Qed.

Lemma line_tail_free_newline (rest : bytes) :
  line_tail_free (newline :: rest).
Proof.
  intros a rest' Heq Ha. destruct a as [|y a]; simpl in Heq.
  - subst rest'. apply tail_fails. by left.
  - injection Heq as <- _. done.
Qed.

Lemma line_tail_free_quiet (q rest : bytes) :
  occurs closer q = false -> closes rest = false ->
  line_tail_free (q ++ newline :: rest).
Proof.
  intros Hq Hrest. induction q as [|x q IH];
    [apply line_tail_free_newline|].
  apply occurs_cons in Hq as [_ Hq].
  apply line_tail_free_cons; [|by apply IH].
  apply tail_fails. right. by apply closes_quiet.
Qed.

Lemma line_tail_free_text (t rest : bytes) :
  free_of ">"%char t = true ->
  line_tail_free rest -> line_tail_free (t ++ rest).
Proof.
  intros Ht Hrest. induction t as [|x t IH]; [done|].
  simpl in Ht. apply andb_prop in Ht as [Hx Ht].
  apply line_tail_free_cons; [|by apply IH].
  apply tail_fails. left. intros ->. done.
Qed.

(** Behind the opening of a well-formed anchor line nothing but the
    anchor's own [>] starts a match of the rest of the pattern. *)
Lemma line_tail_free_anchor (t trail rest : bytes) :
  free_of ">"%char t = true ->
  occurs closer trail = false -> closes rest = false ->
  line_tail_free (t ++ closer ++ trail ++ newline :: rest).
Proof.
  intros Ht Htrail Hrest.
  apply line_tail_free_text; [done|].
  pose proof (line_tail_free_quiet trail rest Htrail Hrest) as Hq.
  pose proof (closes_quiet trail rest Htrail Hrest) as Hc.
  repeat (apply line_tail_free_cons;
          [apply tail_fails; first [by left | by right]|]).
  exact Hq.
Qed.

(** At the head of a well-formed anchor line past its lead, the pattern
    matches the anchor and nothing more. *)
Lemma anchor_matches (h t trail rest : bytes) :
  free_of dquote h = true ->
  free_of "<"%char t = true -> free_of ">"%char t = true ->
  occurs closer trail = false -> closes rest = false ->
  match_here anchor_regex (anchor_bytes h t ++ trail ++ newline :: rest)
  = Some ([h; t], trail ++ newline :: rest).
Proof.
  intros Hh Hlt Hgt Htrail Hrest.
  set (after := trail ++ newline :: rest).
  set (k := match_here (Ch dquote :: Star dot :: tail_regex)).
  assert (forall s, k (dquote :: s)
                    = '(_, o) ← star dot (match_here tail_regex) s; Some o)
    as Hk.
  { done. }
  assert (match_here anchor_regex (anchor_bytes h t ++ after)
          = '(taken, (gs, rest)) ←
              star (not_char dquote) k
                   (h ++ dquote :: ">"%char :: t ++ closer ++ after);
            Some (taken :: gs, rest)) as ->.
  { unfold anchor_regex, anchor_bytes, lit.
    rewrite <- !app_assoc. by rewrite (match_literal (B "<a href=")). }
  rewrite star_exact; [|exact Hh| |].
  - rewrite Hk, star_empty.
    + by rewrite tail_matches.
    + intros a rest' Heq Ha Hdot.
      destruct a as [|y a]; [done|]. simpl in Heq. injection Heq as <- Heq.
      simpl in Hdot.
      by apply (line_tail_free_anchor t trail rest Hgt Htrail Hrest a rest').
  - simpl. unfold not_char. by rewrite Ascii.eqb_refl.
  - intros a1 a2 -> Ha2. destruct a2 as [|y a2]; [done|].
    unfold free_of in Hh. rewrite forallb_app in Hh.
    apply andb_prop in Hh as [_ Hh]. simpl in Hh.
    apply andb_prop in Hh as [Hy _]. unfold not_char in Hy.
    apply negb_true_iff in Hy. unfold k. simpl. by rewrite Hy.
Qed.

(** *** The scan *)

Lemma find_all_cons (p : pattern) (x : ascii) (s : bytes) :
  find_all p 0 (x :: s) =
  match match_here p (x :: s) with
  | Some o => submatch (x :: s) o
              :: find_all p (length (x :: s) - length o.2 - 1) s
  | None => find_all p 0 s
  end.
Proof. done. Qed.

Lemma find_all_skip (p : pattern) (a rest : bytes) :
  find_all p (length a) (a ++ rest) = find_all p 0 rest.
Proof. induction a as [|x a IH]; [by destruct rest | exact IH]. Qed.

(** After a match the scan goes on behind it. *)
Lemma find_all_match (p : pattern) (m rest : bytes) (gs : list bytes) :
  m <> [] ->
  match_here p (m ++ rest) = Some (gs, rest) ->
  find_all p 0 (m ++ rest) = (m :: gs) :: find_all p 0 rest.
Proof.
  intros Hm Hmatch. destruct m as [|x m]; [done|].
  change ((x :: m) ++ rest) with (x :: m ++ rest) in *.
  rewrite find_all_cons, Hmatch. unfold submatch. cbn [fst snd].
  replace (length (x :: m ++ rest) - length rest)%nat
    with (length (x :: m)) by (simpl; rewrite length_app; lia).
  replace (length (x :: m) - 1)%nat with (length m) by (simpl; lia).
  rewrite find_all_skip. f_equal. f_equal.
  change (x :: m ++ rest) with ((x :: m) ++ rest).
  by rewrite take_app_length.
Qed.

Lemma anchor_regex_opener :
  anchor_regex
  = map Ch opener ++ [Group (not_char dquote); Ch dquote; Star dot] ++ tail_regex.
Proof. done. Qed.

Lemma no_match_without_opener (s : bytes) :
  starts_with opener s = false -> match_here anchor_regex s = None.
Proof. rewrite anchor_regex_opener. apply match_literal_fails. Qed.

Lemma find_all_no_opener (s : bytes) :
  occurs opener s = false -> find_all anchor_regex 0 s = [].
Proof.
  induction s as [|x s IH]; intros H; [done|].
  apply occurs_cons in H as [Hhere H].
  rewrite find_all_cons, (no_match_without_opener _ Hhere). by apply IH.
Qed.

Lemma find_all_quiet (q rest : bytes) :
  occurs opener q = false ->
  find_all anchor_regex 0 (q ++ newline :: rest)
  = find_all anchor_regex 0 rest.
Proof.
  intros H. induction q as [|x q IH].
  - change ([] ++ newline :: rest) with (newline :: rest).
    by rewrite find_all_cons, no_match_without_opener.
  - apply occurs_cons in H as [Hhere H].
    change ((x :: q) ++ newline :: rest) with (x :: q ++ newline :: rest).
    rewrite find_all_cons, no_match_without_opener; [by apply IH|].
    change (x :: q ++ newline :: rest) with ((x :: q) ++ newline :: rest).
    by rewrite starts_with_before_newline.
Qed.

Lemma find_all_lead (lead rest : bytes) :
  free_of "<"%char lead = true ->
  find_all anchor_regex 0 (lead ++ rest) = find_all anchor_regex 0 rest.
Proof.
  intros H. induction lead as [|x lead IH]; [done|].
  simpl in H. apply andb_prop in H as [Hx H].
  change ((x :: lead) ++ rest) with (x :: lead ++ rest).
  rewrite find_all_cons, no_match_without_opener; [by apply IH|].
  unfold not_char in Hx. apply negb_true_iff in Hx.
  unfold opener. simpl. by rewrite Hx.
Qed.

Lemma find_all_render (page : list line) :
  well_formed page = true ->
  find_all anchor_regex 0 (render page)
  = map (fun a => [anchor_bytes (href a) (text a); href a; text a])
        (anchors_of page).
Proof.
  induction page as [|l page IH]; intros Hwf; [done|].
  cbn [well_formed forallb] in Hwf. apply andb_prop in Hwf as [Hl Hwf].
  pose proof (closes_render page Hwf) as Hrest.
  specialize (IH Hwf).
  destruct l as [lead h t trail|content].
  - apply well_formed_anchor_inv in Hl as (Hlead & Hh & Hlt & Hgt & Hq).
    apply quiet_inv in Hq as (_ & Ho & Hc).
    rewrite render_anchor, find_all_lead by done.
    rewrite (find_all_match anchor_regex (anchor_bytes h t) _ [h; t]);
      [|done|by apply anchor_matches].
    rewrite find_all_quiet by done.
    cbn [anchors_of omap list_omap map href text]. by rewrite IH.
  - apply quiet_inv in Hl as (_ & Ho & _).
    rewrite render_other, find_all_quiet by done.
    exact IH.
Qed.

(** C4, as the code has it: on a page made of lines that end in a line
    feed, each either an anchor of the shape [<a href=] quoted href [>]
    text [</a>] between a lead free of [<] and a trail, or some other
    line, where hrefs hold no double quote, texts no angle bracket, and
    trails and other lines neither the opening [<a href=] with its quote
    nor [</a>], the extractor returns the anchors' hrefs and texts, one
    pair to an anchor, in the order of the page; and on an input in which
    the opening does not occur it returns nothing. *)
Theorem C4_one_anchor_per_line (page : list line) (body : bytes) :
  well_formed page = true ->
  occurs opener body = false ->
  exctractUrls (render page) = anchors_of page /\
  exctractUrls body = [].
Proof.
  intros Hwf Hbody. rewrite !exctractUrls_map. unfold FindAllSubmatch.
  rewrite (find_all_render page Hwf), (find_all_no_opener body Hbody).
  split; [|done].
  rewrite map_map. rewrite <- (map_id (anchors_of page)) at 2.
  apply map_ext. by intros [h t].
Qed.

End MatcherFacts.

(** ** What the extractor returns on any input *)

Section ExtractorFacts.
Import Regexp Page.

Lemma star_sound (cls : ascii -> bool) (k : bytes -> option outcome) (s : bytes) :
  forall taken o,
    star cls k s = Some (taken, o) ->
    exists s2, s = taken ++ s2 /\ forallb cls taken = true /\ k s2 = Some o.
Proof.
  induction s as [|x s IH]; intros taken o H.
  - simpl in H. destruct (k []) as [o'|] eqn:Hk; [|done].
    injection H as <- <-. by exists [].
  - rewrite star_cons in H.
    destruct (cls x) eqn:Hx.
    + destruct (star cls k s) as [[taken' o']|] eqn:Hs.
      * injection H as <- <-.
        destruct (IH _ _ eq_refl) as (s2 & -> & Hcls & Hk).
        exists s2. simpl. by rewrite Hx.
      * destruct (k (x :: s)) as [o'|] eqn:Hk; [|done].
        injection H as <- <-. by exists (x :: s).
    + destruct (k (x :: s)) as [o'|] eqn:Hk; [|done].
      injection H as <- <-. by exists (x :: s).
Qed.

Lemma match_here_sound (p : pattern) :
  forall s gs rest,
    match_here p s = Some (gs, rest) ->
    exists m, s = m ++ rest /\ matches p m gs.
Proof.
  induction p as [|i p IH]; intros s gs rest H.
  - injection H as <- <-. exists []. split; [done | constructor].
  - destruct i as [c|cls|cls]; simpl in H.
    + destruct s as [|x s]; [done|].
      destruct (Ascii.eqb x c) eqn:Hx; [|done].
      apply Ascii.eqb_eq in Hx as ->.
      destruct (IH _ _ _ H) as (m & -> & Hm).
      exists (c :: m). split; [done|].
      apply (matches_cons (Ch c) p [c] [] m gs); [constructor | done].
    + destruct (star cls (match_here p) s) as [[taken [gs' rest']]|] eqn:Hs;
        [|done].
      simpl in H. injection H as <- <-.
      apply star_sound in Hs as (s2 & -> & Hcls & Hk).
      destruct (IH _ _ _ Hk) as (m & -> & Hm).
      exists (taken ++ m). split; [by rewrite app_assoc|].
      apply (matches_cons (Star cls) p taken [] m gs'); [by constructor | done].
    + destruct (star cls (match_here p) s) as [[taken [gs' rest']]|] eqn:Hs;
        [|done].
      simpl in H. injection H as <- <-.
      apply star_sound in Hs as (s2 & -> & Hcls & Hk).
      destruct (IH _ _ _ Hk) as (m & -> & Hm).
      exists (taken ++ m). split; [by rewrite app_assoc|].
      apply (matches_cons (Group cls) p taken [taken] m gs');
        [by constructor | done].
Qed.

Lemma find_all_sound (p : pattern) (s : bytes) :
  forall skip sub,
    sub ∈ find_all p skip s ->
    exists pre m gs post,
      sub = m :: gs /\ s = pre ++ m ++ post /\ matches p m gs.
Proof.
  induction s as [|x s IH]; intros skip sub H; [by apply elem_of_nil in H|].
  assert (forall k, sub ∈ find_all p k s ->
            exists pre m gs post,
              sub = m :: gs /\ x :: s = pre ++ m ++ post /\ matches p m gs)
    as Hlater.
  { intros k Hk. destruct (IH k sub Hk) as (pre & m & gs & post & -> & -> & Hm).
    by exists (x :: pre), m, gs, post. }
  destruct skip as [|k]; [|by apply (Hlater k)].
  rewrite find_all_cons in H.
  destruct (match_here p (x :: s)) as [[gs rest]|] eqn:Hhere;
    [|by apply (Hlater 0%nat)].
  apply elem_of_cons in H as [->|H]; [|by eapply Hlater].
  destruct (match_here_sound _ _ _ _ Hhere) as (m & Hs & Hm).
  exists [], m, gs, rest. split; [|done].
  unfold submatch. cbn [fst snd]. rewrite Hs. f_equal.
  rewrite length_app.
  replace (length m + length rest - length rest)%nat with (length m) by lia.
  by rewrite take_app_length.
Qed.

(** The shape of what the anchor pattern matches. *)
Lemma anchor_regex_shape (m : bytes) (gs : list bytes) :
  matches anchor_regex m gs ->
  exists h d t,
    gs = [h; t] /\
    m = opener ++ h ++ [dquote] ++ d ++ B ">" ++ t ++ closer /\
    free_of dquote h = true /\ forallb dot d = true /\
    free_of "<"%char t = true.
Proof.
  intros H. cbv [anchor_regex lit B list_ascii_of_string map app] in H.
  repeat match goal with
         | H : matches (_ :: _) _ _ |- _ => inversion H; subst; clear H
         | H : matches [] _ _ |- _ => inversion H; subst; clear H
         | H : matches_item _ _ _ |- _ => inversion H; subst; clear H
         end.
  eexists _, _, _. split; [reflexivity|]. split; [|done].
  cbv [opener closer B list_ascii_of_string]. simpl.
  rewrite <- ?app_assoc. simpl. rewrite ?app_nil_r. reflexivity.
Qed.

Lemma star_complete (cls : ascii -> bool) (k : bytes -> option outcome)
    (a s2 : bytes) :
  forallb cls a = true -> k s2 <> None -> star cls k (a ++ s2) <> None.
Proof.
  intros Ha Hk. induction a as [|x a IH].
  - change ([] ++ s2) with s2.
    destruct (k s2) as [o|] eqn:Hks; [|done].
    destruct s2 as [|y s2]; [by simpl; rewrite Hks|].
    rewrite star_cons, Hks.
    destruct (cls y); [|done]. by destruct (star cls k s2) as [[? ?]|].
  - simpl in Ha. apply andb_prop in Ha as [Hx Ha].
    change ((x :: a) ++ s2) with (x :: a ++ s2).
    rewrite star_cons, Hx.
    destruct (star cls k (a ++ s2)) as [[? ?]|]; [done|]. by destruct (IH Ha).
Qed.

Ltac invert_matches :=
  repeat match goal with
         | H : matches (_ :: _) _ _ |- _ => inversion H; subst; clear H
         | H : matches [] _ _ |- _ => inversion H; subst; clear H
         | H : matches_item _ _ _ |- _ => inversion H; subst; clear H
         end.

(** Where an anchor of the plain shape begins, the pattern matches, and
    its first group is the anchor's href. *)
Lemma anchor_found (h t post : bytes) :
  free_of dquote h = true -> free_of "<"%char t = true ->
  exists t' rest,
    match_here anchor_regex (anchor_bytes h t ++ post) = Some ([h; t'], rest).
Proof.
  intros Hh Ht.
  set (k := match_here (Ch dquote :: Star dot :: tail_regex)).
  assert (match_here anchor_regex (anchor_bytes h t ++ post)
          = '(taken, (gs, rest)) ←
              star (not_char dquote) k
                   (h ++ dquote :: ">"%char :: t ++ closer ++ post);
            Some (taken :: gs, rest)) as ->.
  { unfold anchor_regex, anchor_bytes, lit.
    rewrite <- !app_assoc. by rewrite (match_literal (B "<a href=")). }
  rewrite star_exact; [|exact Hh| |]; cycle 1.
  { simpl. unfold not_char. by rewrite Ascii.eqb_refl. }
  { intros a1 a2 -> Ha2. destruct a2 as [|y a2]; [done|].
    unfold free_of in Hh. rewrite forallb_app in Hh.
    apply andb_prop in Hh as [_ Hh]. simpl in Hh.
    apply andb_prop in Hh as [Hy _]. unfold not_char in Hy.
    apply negb_true_iff in Hy. unfold k. simpl. by rewrite Hy. }
  assert (k (dquote :: ">"%char :: t ++ closer ++ post) <> None) as Hk.
  { change (k (dquote :: ">"%char :: t ++ closer ++ post))
      with ('(_, o) ← star dot (match_here tail_regex)
                             ([] ++ ">"%char :: t ++ closer ++ post); Some o).
    pose proof (star_complete dot (match_here tail_regex) []
                  (">"%char :: t ++ closer ++ post) eq_refl) as Hs.
    rewrite tail_matches in Hs by done.
    destruct (star dot _ _) as [[? ?]|]; [done|]. by destruct Hs. }
  destruct (k _) as [[gs rest]|] eqn:Hks; [|done].
  unfold k in Hks. apply match_here_sound in Hks as (m & _ & Hm).
  cbv [tail_regex lit B list_ascii_of_string map app] in Hm.
  invert_matches. by eexists _, _.
Qed.

Lemma find_all_finds (p : pattern) (pre : bytes) (x : ascii) (s : bytes) :
  match_here p (x :: s) <> None -> find_all p 0 (pre ++ x :: s) <> [].
Proof.
  intros H. induction pre as [|y pre IH].
  - change ([] ++ x :: s) with (x :: s). rewrite find_all_cons.
    by destruct (match_here p (x :: s)).
  - change ((y :: pre) ++ x :: s) with (y :: pre ++ x :: s).
    rewrite find_all_cons.
    destruct (match_here p (y :: pre ++ x :: s)); [done | exact IH].
Qed.

Lemma anchor_bytes_cons (h t : bytes) :
  exists tl, anchor_bytes h t = "<"%char :: tl.
Proof. by eexists. Qed.

(** X3: an input that holds an anchor of the plain shape, with an href
    free of double quotes and a text free of [<], never yields the empty
    sequence. *)
Theorem anchor_present_some_output (pre h t post : bytes) :
  free_of dquote h = true -> free_of "<"%char t = true ->
  exctractUrls (pre ++ anchor_bytes h t ++ post) <> [].
Proof.
  intros Hh Ht. rewrite exctractUrls_map. unfold FindAllSubmatch.
  destruct (anchor_found h t post Hh Ht) as (t' & rest & Hm).
  destruct (anchor_bytes_cons h t) as [tl Htl].
  rewrite Htl in *. change (("<"%char :: tl) ++ post) with ("<"%char :: tl ++ post) in *.
  pose proof (find_all_finds anchor_regex pre "<"%char (tl ++ post)) as Hf.
  rewrite Hm in Hf. specialize (Hf ltac:(done)).
  by destruct (find_all _ _ _).
Qed.

(** X4: when nothing but bytes other than [<] precedes the first anchor
    of the plain shape, the first pair returned has that anchor's href;
    its text is free of [<] but may be that of a later anchor. *)
Theorem first_href_is_right (lead h t post : bytes) :
  free_of "<"%char lead = true ->
  free_of dquote h = true -> free_of "<"%char t = true ->
  exists t' more,
    exctractUrls (lead ++ anchor_bytes h t ++ post)
    = {| href := h; text := t' |} :: more /\
    free_of "<"%char t' = true.
Proof.
  intros Hlead Hh Ht. rewrite exctractUrls_map. unfold FindAllSubmatch.
  rewrite find_all_lead by done.
  destruct (anchor_found h t post Hh Ht) as (t' & rest & Hm).
  destruct (match_here_sound _ _ _ _ Hm) as (m & _ & Hshape).
  apply anchor_regex_shape in Hshape as (h' & d & t'' & Hgs & _ & _ & _ & Ht').
  injection Hgs as _ <-.
  destruct (anchor_bytes_cons h t) as [tl Htl].
  rewrite Htl in *. change (("<"%char :: tl) ++ post) with ("<"%char :: tl ++ post) in *.
  rewrite find_all_cons, Hm. simpl. by eexists _, _.
Qed.

(** X1: every pair the extractor returns stands in the input: its href,
    free of double quotes, behind an opening [<a href=] and its quote,
    then the closing quote, bytes without a line feed, a [>], and its
    text, free of [<], in front of [</a>]. *)
Theorem extraction_sound (body : bytes) (a : AnchorTag) :
  a ∈ exctractUrls body ->
  exists pre d post,
    body = pre ++ opener ++ href a ++ [dquote] ++ d ++ B ">" ++ text a
               ++ closer ++ post /\
    free_of dquote (href a) = true /\ forallb dot d = true /\
    free_of "<"%char (text a) = true.
Proof.
  rewrite exctractUrls_map. unfold FindAllSubmatch. intros H.
  apply list_elem_of_fmap in H as (sub & -> & Hsub).
  apply find_all_sound in Hsub as (pre & m & gs & post & -> & -> & Hm).
  apply anchor_regex_shape in Hm as (h & d & t & -> & -> & Hh & Hd & Ht).
  exists pre, d, post. cbn [href text lookup_total list_lookup_total].
  split; [|done].
  by rewrite <- !app_assoc.
Qed.

Lemma find_all_count (p : pattern) (n : nat) (s : bytes) :
  (forall m gs, matches p m gs -> n <= length m)%nat ->
  forall skip, (n * length (find_all p skip s) <= length s - skip)%nat.
Proof.
  intros Hn. induction s as [|x s IH]; intros skip; [simpl; lia|].
  destruct skip as [|k].
  - rewrite find_all_cons.
    destruct (match_here p (x :: s)) as [[gs rest]|] eqn:Hhere.
    + destruct (match_here_sound _ _ _ _ Hhere) as (m & Hs & Hm).
      apply Hn in Hm. cbn [snd length].
      specialize (IH (S (length s) - length rest - 1)%nat).
      apply (f_equal length) in Hs. rewrite length_app in Hs. simpl in Hs.
      lia.
    + specialize (IH 0%nat). simpl. lia.
  - specialize (IH k). simpl. lia.
Qed.

(** X2: the matches do not overlap and none is shorter than 15 bytes:
    the extractor returns at most one pair for every 15 bytes of input. *)
Theorem extraction_count (body : bytes) :
  (15 * length (exctractUrls body) <= length body)%nat.
Proof.
  rewrite exctractUrls_map, length_map. unfold FindAllSubmatch.
  assert (forall m gs, matches anchor_regex m gs -> 15 <= length m)%nat
    as Hmin.
  { intros m gs Hm.
    apply anchor_regex_shape in Hm as (h & d & t & _ & -> & _).
    rewrite !length_app. simpl. lia. }
  pose proof (find_all_count anchor_regex 15 body Hmin 0%nat) as H. lia.
Qed.

End ExtractorFacts.

(** ** The counters, the wire and the ceiling under interleaving *)

Section GovernorFacts.
Import Crawl Interleaving.
Context {P : Platform}.

Lemma count_pc_insert (f : pc -> bool) (ts : list pc) (i : nat) (t t' : pc) :
  ts !! i = Some t ->
  count_pc f (<[i := t']> ts) = count_pc f ts - Z.b2z (f t) + Z.b2z (f t').
Proof.
  revert i. induction ts as [|x ts IH]; intros i Hi; [done|].
  destruct i as [|i]; simpl in *.
  - injection Hi as ->. unfold count_pc. simpl. lia.
  - unfold count_pc in *. simpl. rewrite (IH i Hi). lia.
Qed.

Lemma count_pc_replicate (f : pc -> bool) (n : nat) (t : pc) :
  count_pc f (replicate n t) = Z.b2z (f t) * Z.of_nat n.
Proof.
  induction n as [|n IH]; [simpl; lia|].
  unfold count_pc in *. simpl replicate. simpl foldr. rewrite IH. lia.
Qed.

Lemma wrap_int64_congr (a b k : Z) :
  a = b + k * 2 ^ 64 -> wrap_int64 a = wrap_int64 b.
Proof. intros ->. apply wrap_int64_shift. Qed.

Lemma step_accounted (c c' : Config) :
  step c c' -> accounted c -> accounted c'.
Proof.
  intros Hstep [Htotal Hfinished].
  destruct Hstep as [c i t sh' t' Hi Hstep]. unfold accounted. simpl.
  rewrite !(count_pc_insert _ _ _ _ t' Hi).
  destruct Hstep; simpl; rewrite ?Htotal, ?Hfinished;
    try (split; f_equal; lia).
  - (* totalRequests.Add(1) *)
    split; [|f_equal; lia]. unfold int64_add.
    destruct (wrap_int64_eqm
                (Z.of_nat (length (sent sh)) + count_pc is_sending (threads c)))
      as [k ->].
    apply (wrap_int64_congr _ _ k). lia.
  - (* the request goes on the wire *)
    rewrite length_app. simpl. split; f_equal; lia.
  - (* requestsFinished.Add(1) *)
    split; [f_equal; lia|]. unfold int64_add.
    destruct (wrap_int64_eqm
                (Z.of_nat (length (sent sh)) - count_pc is_answered (threads c)))
      as [k ->].
    apply (wrap_int64_congr _ _ k). lia.
Qed.

(** X6: in every reachable state, [totalRequests] is the number of
    requests on the wire plus the goroutines that have added and not yet
    sent, and [requestsFinished] is that number less the goroutines that
    hold an answer and have not yet added, both modulo 2^64. *)
Theorem counters_account_for_wire (n : nat) (c : Config) :
  reachable n c -> accounted c.
Proof.
  unfold reachable. revert c. apply (rtc_ind_r accounted).
  - unfold accounted. simpl. by rewrite !count_pc_replicate.
  - intros c c' _ Hstep IH. by apply (step_accounted c c').
Qed.

(** What one goroutine can do alone it can do among the others. *)
Lemma solo_among_others (pre post : list pc) (a b : Shared * pc) :
  rtc solo a b ->
  rtc step {| shared := a.1; threads := pre ++ a.2 :: post |}
           {| shared := b.1; threads := pre ++ b.2 :: post |}.
Proof.
  induction 1 as [a|a b c Hab _ IH]; [done|].
  eapply rtc_l; [|exact IH].
  destruct a as [sh t], b as [sh' t']. simpl in *.
  replace (pre ++ t' :: post) with (<[length pre := t']> (pre ++ t :: post)).
  - apply (step_thread {| shared := sh; threads := pre ++ t :: post |}
             (length pre) t sh' t'); [|exact Hab].
    simpl. by rewrite list_lookup_middle.
  - rewrite <- (Nat.add_0_r (length pre)) at 1. by rewrite insert_app_r.
Qed.

(** If any one goroutine can go from [t] to [t'], changing what is
    shared by [f] and keeping [I], then so can [n] goroutines, one after
    the other. *)
Lemma all_in_turn (I : Shared -> Prop) (f : Shared -> Shared) (t t' : pc) :
  (forall sh, I sh -> rtc solo (sh, t) (f sh, t') /\ I (f sh)) ->
  forall n pre sh, I sh ->
    rtc step {| shared := sh; threads := pre ++ replicate n t |}
             {| shared := Nat.iter n f sh; threads := pre ++ replicate n t' |}
    /\ I (Nat.iter n f sh).
Proof.
  intros Hone. induction n as [|n IH]; intros pre sh Hsh; [done|].
  destruct (Hone sh Hsh) as [Hrun Hnext].
  destruct (IH (pre ++ [t']) (f sh) Hnext) as [Hrest Hend].
  rewrite <- !app_assoc in Hrest. simpl in Hrest.
  replace (Nat.iter (S n) f sh) with (Nat.iter n f (f sh))
    by (symmetry; apply Nat.iter_succ_r).
  split; [|exact Hend].
  etrans; [|exact Hrest].
  apply (solo_among_others pre (replicate n t) (sh, t) (f sh, t') Hrun).
Qed.

Lemma past_the_gate (sh : Shared) (m u : bytes) :
  getRunningRequests (manager sh) < maxConcurrentRequests (manager sh) ->
  rtc solo (sh, Idle) (sh, Parsing m u).
Proof.
  intros Hopen.
  eapply rtc_l; [apply solo_step, (step_call sh m u)|].
  eapply rtc_l; [apply solo_step, step_load_total|].
  eapply rtc_l; [apply solo_step, step_load_finished|].
  apply rtc_once, solo_step, step_free. exact Hopen.
Qed.

Lemma into_flight (sh : Shared) (m u : bytes) (v : URL) :
  url_Parse u = inr v ->
  rtc solo (sh, Parsing m u) (on_manager (totalRequests_Add 1) sh, Sending m v).
Proof.
  intros Hu.
  eapply rtc_l; [by apply solo_step, step_parse|].
  apply rtc_once, solo_step, step_add_total.
Qed.

(** X7: the check and the addition are separate actions: whatever the
    number of goroutines, when all pass the check before any adds, all
    their requests are in flight at once, above the ceiling when they are
    more than the ceiling. *)
Theorem ceiling_not_enforced (n : nat) (m u : bytes) (v : URL) :
  url_Parse u = inr v ->
  Z.of_nat n < 2 ^ 63 ->
  exists c,
    reachable n c /\
    threads c = replicate n (Sending m v) /\
    getRunningRequests (manager (shared c)) = Z.of_nat n /\
    maxConcurrentRequests (manager (shared c)) = MAX_CONCURRENT_REQUESTS.
Proof.
  intros Hu Hn.
  set (open := fun sh : Shared =>
         getRunningRequests (manager sh) < maxConcurrentRequests (manager sh)).
  destruct (all_in_turn open (fun sh => sh) Idle (Parsing m u)
              (fun sh Hsh => conj (past_the_gate sh m u Hsh) Hsh)
              n [] (shared (init n)) ltac:(by compute)) as [Hgate _].
  destruct (all_in_turn (fun _ => True) (on_manager (totalRequests_Add 1))
              (Parsing m u) (Sending m v)
              (fun sh _ => conj (into_flight sh m u v Hu) I)
              n [] (Nat.iter n (fun sh => sh) (shared (init n))) I)
    as [Hfly _].
  eexists. split; [|split; [|split]].
  - unfold reachable. etrans; [exact Hgate | exact Hfly].
  - done.
  - shelve.
  - clear. simpl. induction n as [|n IH]; [done|].
    rewrite Nat.iter_succ. exact IH.
    Unshelve.
    match goal with |- getRunningRequests (manager (shared ?c)) = _ =>
      assert (reachable n c) as Hreach
        by (unfold reachable; etrans; [exact Hgate | exact Hfly])
    end.
    rewrite (running_is_flying n _ Hn Hreach). simpl.
    clear. induction n as [|n IH]; [done|].
    unfold flying in *. simpl replicate. simpl foldr. rewrite IH. lia.
Qed.

End GovernorFacts.

(** ** Runs of main, one goroutine at a time *)

Section RunFacts.
Import Crawl.
Context {P : Platform}.

(** X5: with the ceiling reached and no other goroutine to complete a
    request, [Request], and with it [getDistributions] and
    [getSizeBytes], never returns, however long it polls. *)
Theorem governed_calls_wait_for_ever (fuel : nat) (method request_url : bytes)
    (pkg : Package) (d : Distribution) (s : State) :
  maxConcurrentRequests (rm s) <= getRunningRequests (rm s) ->
  Request fuel method request_url s = None /\
  getDistributions fuel pkg s = None /\
  getSizeBytes fuel d s = None.
Proof.
  intros Hfull.
  assert (forall m u, Request fuel m u s = None) as Hreq.
  { intros m u. unfold Request, bind. by rewrite (await_slot_closed fuel s Hfull). }
  split; [apply Hreq|].
  unfold getDistributions, getSizeBytes, Get, Head, bind.
  by rewrite !Hreq.
Qed.

Lemma steady_open (k : Z) (s : State) :
  steady k s -> getRunningRequests (rm s) < maxConcurrentRequests (rm s).
Proof.
  intros (Heq & -> & _). unfold getRunningRequests, int64_sub.
  rewrite Heq, Z.sub_diag. by compute.
Qed.

Lemma Request_steady (k : Z) (fuel : nat) (method request_url : bytes)
    (s s' : State) r :
  steady k s -> Request fuel method request_url s = Some (s', r) ->
  steady k s'.
Proof.
  intros Hs Hrun. pose proof (steady_open k s Hs) as Hopen.
  destruct Hs as (Heq & Hmax & Hcount).
  unfold Request, bind in Hrun. rewrite (await_slot_open fuel s Hopen) in Hrun.
  destruct (url_Parse request_url) as [err|u]; simpl in Hrun;
    injection Hrun as <- <-; [done|].
  unfold steady. simpl. split; [by rewrite Heq|]. split; [done|].
  rewrite Hcount, length_app. simpl. unfold int64_add.
  destruct (wrap_int64_eqm (Z.of_nat (length (wire s)) - k)) as [j ->].
  rewrite <- (wrap_int64_shift (Z.of_nat (length (wire s) + 1) - k) j).
  f_equal. lia.
Qed.

Lemma Request_steady_returns (k : Z) (fuel : nat) (method request_url : bytes)
    (s : State) :
  steady k s -> exists s' r, Request fuel method request_url s = Some (s', r).
Proof.
  intros Hs.
  destruct (Request_returns fuel method request_url s (steady_open k s Hs))
    as (s' & r & Hrun & _). by exists s', r.
Qed.

Lemma steady_ext (k : Z) (s s' : State) :
  rm s' = rm s -> wire s' = wire s -> steady k s -> steady k s'.
Proof. unfold steady. by intros -> ->. Qed.

(** *** csv.Writer keeps the file open and leaves a line feed behind *)

Lemma closed_WriteByte (c : ascii) (w : Sink) :
  closed (WriteByte c w) = closed w.
Proof. unfold WriteByte. by destruct (_ <=? _)%nat. Qed.

Lemma closed_WriteString (x : bytes) (w : Sink) :
  closed (WriteString x w) = closed w.
Proof.
  unfold WriteString.
  repeat (destruct (_ <=? _)%nat || destruct (_ =? _)%nat); reflexivity.
Qed.

Lemma closed_write_quoted (field : bytes) :
  forall pending w, closed (write_quoted pending field w) = closed w.
Proof.
  induction field as [|c field IH]; intros pending w; simpl.
  - apply closed_WriteString.
  - repeat case_match; rewrite IH;
      by rewrite ?closed_WriteByte, ?closed_WriteString.
Qed.

Lemma closed_write_field (field : bytes) (w : Sink) :
  closed (write_field field w) = closed w.
Proof.
  unfold write_field. case_match.
  - by rewrite closed_WriteByte, closed_write_quoted, closed_WriteByte.
  - apply closed_WriteString.
Qed.

Lemma closed_write_fields (record : list bytes) :
  forall n w, closed (write_fields n record w) = closed w.
Proof.
  induction record as [|field record IH]; intros n w; simpl; [done|].
  rewrite IH, closed_write_field. destruct n; [done|].
  apply closed_WriteByte.
Qed.

Lemma closed_Write (record : list bytes) (w : Sink) :
  closed (Write record w) = closed w.
Proof.
  pose proof (closed_WriteByte newline (write_fields 0 record w)) as H.
  rewrite closed_write_fields in H.
  unfold Write.
  destruct (WriteByte newline (write_fields 0 record w)) as [r b f c].
  exact H.
Qed.

Lemma buffered_WriteByte (c : ascii) (w : Sink) :
  exists b, buffered (WriteByte c w) = b ++ [c].
Proof.
  unfold WriteByte. cbv zeta.
  generalize (if (Available w <=? 0)%nat then Flush w else w).
  intros w'. by exists (buffered w').
Qed.

Lemma buffered_Write (record : list bytes) (w : Sink) :
  ends_with_newline (buffered (Write record w)).
Proof.
  destruct (buffered_WriteByte newline (write_fields 0 record w)) as [b Hb].
  exists b. unfold Write. cbv zeta.
  revert Hb. generalize (WriteByte newline (write_fields 0 record w)).
  by intros w' ->.
Qed.

Lemma writes_snoc (rows : list (list bytes)) (row : list bytes) (w : Sink) :
  writes (rows ++ [row]) w = Write row (writes rows w).
Proof. unfold writes. by rewrite foldl_app. Qed.

Lemma writes_app (rows rows' : list (list bytes)) (w : Sink) :
  writes (rows ++ rows') w = writes rows' (writes rows w).
Proof. unfold writes. by rewrite foldl_app. Qed.

Lemma records_writes (rows : list (list bytes)) (w : Sink) :
  records (writes rows w) = records w ++ rows.
Proof.
  induction rows as [|row rows IH] using rev_ind; [by rewrite app_nil_r|].
  by rewrite writes_snoc, records_Write, IH, app_assoc.
Qed.

Lemma closed_writes (rows : list (list bytes)) (w : Sink) :
  closed (writes rows w) = closed w.
Proof.
  induction rows as [|row rows IH] using rev_ind; [done|].
  by rewrite writes_snoc, closed_Write.
Qed.

Lemma buffered_writes (rows : list (list bytes)) (w : Sink) :
  ends_with_newline (buffered w) \/ rows <> [] ->
  ends_with_newline (buffered (writes rows w)).
Proof.
  induction rows as [|row rows IH] using rev_ind.
  - intros [H|H]; done.
  - intros _. rewrite writes_snoc. apply buffered_Write.
Qed.

(** *** The loop over the distributions *)

Lemma probe_all_inv (fuel : nat) (pkg : Package) (ds : list Distribution) :
  forall (s s' : State) (p : option error),
    probe_all fuel pkg ds s = Some (s', p) ->
    0 <= distributionsFound s < 2 ^ 32 ->
    exists sizes : list Z,
      (length sizes <= length ds)%nat /\
      (p = None <-> length sizes = length ds) /\
      writer s' = writes (zip_with (row_of pkg) ds sizes) (writer s) /\
      distributionsFound s'
      = (distributionsFound s + Z.of_nat (length sizes)
         + match p with Some _ => 1 | None => 0 end) mod 2 ^ 32 /\
      tasksGroup s' = tasksGroup s /\
      packagesScraped s' = packagesScraped s /\
      forall k, steady k s -> steady k s'.
Proof.
  induction ds as [|d ds IH]; intros s s' p H Hrange; simpl in H.
  - injection H as <- <-. exists []. simpl.
    split; [lia|]. split; [done|]. split; [done|].
    split; [rewrite !Z.add_0_r; symmetry; by apply Z.mod_small|]. done.
  - unfold bind in H.
    destruct (probe fuel pkg d s) as [[s1 p1]|] eqn:Hp; [|discriminate].
    apply probe_inv in Hp as (s0 & r & Hhead & Hr).
    pose proof Hhead as Hinv.
    apply Request_inv in Hinv as (_ & (Htg & Hps & Hdf & _ & Hw) & _).
    simpl in Htg, Hps, Hdf, Hw.
    destruct r as [e|response]; destruct Hr as [-> ->].
    + injection H as <- <-. exists []. simpl.
      split; [lia|]. split; [done|]. split; [done|].
      split; [rewrite Hdf; unfold uint32_add; f_equal; lia|].
      split; [done|]. split; [done|].
      intros k Hk. apply (steady_ext k s0); [done|done|].
      eapply Request_steady; [|exact Hhead]. by apply (steady_ext k s).
    + apply IH in H as (sizes & Hlen & Hp & Hwr & Hfound & Htask & Hscr & Hst).
      2:{ simpl. rewrite Hdf. unfold uint32_add.
          apply Z.mod_pos_bound. done. }
      exists (int_of_int64 (ContentLength response) :: sizes). simpl in *.
      split; [lia|]. split; [rewrite Hp; lia|].
      split; [by rewrite Hwr, Hw|].
      split.
      { rewrite Hfound, Hdf. unfold uint32_add.
        rewrite <- Z.add_assoc, Zplus_mod_idemp_l. f_equal. lia. }
      split; [by rewrite Htask|]. split; [by rewrite Hscr|].
      intros k Hk. apply Hst. apply (steady_ext k s0); [done|done|].
      eapply Request_steady; [|exact Hhead]. by apply (steady_ext k s).
Qed.

Lemma probe_returns (k : Z) (fuel : nat) (pkg : Package) (d : Distribution)
    (s : State) :
  steady k s -> exists s' p, probe fuel pkg d s = Some (s', p).
Proof.
  intros Hs.
  destruct (Request_steady_returns k fuel (B "HEAD") (dist_url d)
              (set_distributionsFound (fun n => uint32_add n 1) s)
              ltac:(by apply (steady_ext k s))) as (s' & r & Hr).
  unfold probe, getSizeBytes, Head. unfold bind, modify. rewrite Hr.
  destruct r; by eexists _, _.
Qed.

Lemma probe_all_returns (k : Z) (fuel : nat) (pkg : Package)
    (ds : list Distribution) :
  forall s, steady k s -> 0 <= distributionsFound s < 2 ^ 32 ->
    exists s' p, probe_all fuel pkg ds s = Some (s', p).
Proof.
  induction ds as [|d ds IH]; intros s Hs Hrange; [by eexists _, _|].
  destruct (probe_returns k fuel pkg d s Hs) as (s1 & p1 & Hp).
  pose proof (probe_all_inv fuel pkg [d] s) as Hone.
  simpl in Hone. unfold bind in Hone. simpl. unfold bind.
  rewrite Hp in *. destruct p1 as [e|]; [by eexists _, _|].
  destruct (Hone s1 None eq_refl Hrange) as (sizes & _ & _ & _ & Hdf & _ & _ & Hst).
  apply IH; [by apply Hst|].
  rewrite Hdf. by apply Z.mod_pos_bound.
Qed.

Lemma getDistributions_steady (k : Z) (fuel : nat) (pkg : Package)
    (s s' : State) out :
  steady k s -> getDistributions fuel pkg s = Some (s', out) -> steady k s'.
Proof.
  unfold getDistributions, bind, Get. intros Hs H.
  destruct (Request fuel (B "GET") (url pkg) s) as [[s1 r]|] eqn:Hreq;
    [|discriminate].
  apply (Request_steady k) in Hreq; [|done].
  destruct r as [e|response]; [by injection H as <- _|].
  destruct (Body response); by injection H as <- _.
Qed.

Lemma getDistributions_returns (k : Z) (fuel : nat) (pkg : Package) (s : State) :
  steady k s -> exists s' out, getDistributions fuel pkg s = Some (s', out).
Proof.
  intros Hs. unfold getDistributions, bind, Get.
  destruct (Request_steady_returns k fuel (B "GET") (url pkg) s Hs)
    as (s' & r & ->).
  destruct r as [e|response]; [by eexists _, _|].
  destruct (Body response); by eexists _, _.
Qed.

(** *** The goroutine of a package, and the launching loop *)

Lemma crawl_package_inv (fuel : nat) (pkg : Package) (s s' : State)
    (p : option error) :
  crawl_package fuel pkg s = Some (s', p) ->
  0 <= distributionsFound s < 2 ^ 32 ->
  exists rows,
    writer s' = writes rows (writer s) /\
    packagesScraped s' = packagesScraped s /\
    0 <= distributionsFound s' < 2 ^ 32 /\
    (p = None ->
     tasksGroup s' = tasksGroup s - 1 /\
     distributionsFound s'
     = (distributionsFound s + Z.of_nat (length rows)) mod 2 ^ 32) /\
    forall k, steady k s -> steady k s'.
Proof.
  unfold crawl_package, bind. intros H Hrange.
  destruct (getDistributions fuel pkg s) as [[s1 [ds err]]|] eqn:Hd;
    [|discriminate].
  pose proof (getDistributions_frame _ _ _ _ _ Hd) as (Htg & Hps & Hdf & _ & Hw).
  destruct err as [e|].
  { injection H as <- <-. exists []. simpl.
    split; [done|]. split; [done|]. split; [by rewrite Hdf|].
    split; [done|]. intros k Hk. by eapply getDistributions_steady. }
  destruct (probe_all fuel pkg ds s1) as [[s2 p2]|] eqn:Hp; [|discriminate].
  apply probe_all_inv in Hp
    as (sizes & Hlen & Hnone & Hwr & Hfound & Htask & Hscr & Hst);
    [|by rewrite Hdf].
  exists (zip_with (row_of pkg) ds sizes).
  assert (length (zip_with (row_of pkg) ds sizes) = length sizes) as Hrows.
  { rewrite length_zip_with. lia. }
  assert (0 <= distributionsFound s2 < 2 ^ 32) as Hrange2
    by (rewrite Hfound; by apply Z.mod_pos_bound).
  destruct p2 as [e|]; simpl in H; injection H as <- <-.
  - split; [by rewrite Hwr, Hw|]. split; [by rewrite Hscr|].
    split; [done|]. split; [done|].
    intros k Hk. apply Hst. by eapply getDistributions_steady.
  - simpl. split; [by rewrite Hwr, Hw|]. split; [by rewrite Hscr|].
    split; [done|]. split.
    + intros _. split; [by rewrite Htask, Htg|].
      rewrite Hfound, Hdf, Hrows. f_equal. lia.
    + intros k Hk. apply (steady_ext k s2); [done|done|].
      apply Hst. by eapply getDistributions_steady.
Qed.

Lemma crawl_package_returns (k : Z) (fuel : nat) (pkg : Package) (s : State) :
  steady k s -> 0 <= distributionsFound s < 2 ^ 32 ->
  exists s' p, crawl_package fuel pkg s = Some (s', p).
Proof.
  intros Hs Hrange. unfold crawl_package, bind.
  destruct (getDistributions_returns k fuel pkg s Hs) as (s1 & [ds err] & Hd).
  rewrite Hd.
  pose proof (getDistributions_frame _ _ _ _ _ Hd) as (_ & _ & Hdf & _).
  destruct err; [by eexists _, _|].
  destruct (probe_all_returns k fuel pkg ds s1) as (s2 & p2 & ->);
    [by eapply getDistributions_steady | by rewrite Hdf|].
  destruct p2; by eexists _, _.
Qed.

Lemma launch_all_inv (fuel : nat) (packages : list Package) :
  forall (s s' : State) (p : option error),
    launch_all fuel packages s = Some (s', p) ->
    0 <= distributionsFound s < 2 ^ 32 ->
    0 <= packagesScraped s < 2 ^ 32 ->
    exists rows,
      writer s' = writes rows (writer s) /\
      (p = None ->
       tasksGroup s' = tasksGroup s /\
       packagesScraped s'
       = (packagesScraped s + Z.of_nat (length packages)) mod 2 ^ 32 /\
       distributionsFound s'
       = (distributionsFound s + Z.of_nat (length rows)) mod 2 ^ 32) /\
      forall k, steady k s -> steady k s'.
Proof.
  induction packages as [|pkg packages IH]; intros s s' p H Hdf Hps; simpl in H.
  - injection H as <- <-. exists []. simpl. split; [done|]. split; [|done].
    intros _. rewrite !Z.add_0_r. split; [done|].
    split; symmetry; by apply Z.mod_small.
  - unfold bind, modify in H.
    destruct (crawl_package fuel pkg _) as [[s1 p1]|] eqn:Hc; [|discriminate].
    apply crawl_package_inv in Hc
      as (rows1 & Hw1 & Hps1 & Hrange1 & Hnone1 & Hst1); [|done].
    simpl in Hw1, Hps1, Hnone1.
    destruct p1 as [e|].
    { injection H as <- <-. exists rows1. split; [done|]. split; [done|].
      intros k Hk. apply Hst1. by apply (steady_ext k s). }
    destruct (Hnone1 eq_refl) as [Htg1 Hdf1].
    simpl in H. apply IH in H as (rows & Hw & Hnone & Hst);
      [|done|simpl; rewrite Hps1; unfold uint32_add; by apply Z.mod_pos_bound].
    simpl in Hw, Hnone.
    exists (rows1 ++ rows). split; [by rewrite writes_app, <- Hw1|].
    split.
    + intros Hp. destruct (Hnone Hp) as (Htg & Hscr & Hfound).
      split; [rewrite Htg, Htg1; ring|].
      split.
      * rewrite Hscr, Hps1. unfold uint32_add.
        rewrite Zplus_mod_idemp_l. f_equal. simpl length. lia.
      * rewrite Hfound, Hdf1, length_app, Zplus_mod_idemp_l. f_equal. lia.
    + intros k Hk. apply Hst. apply (steady_ext k s1); [done|done|].
      apply Hst1. by apply (steady_ext k s).
Qed.

Lemma launch_all_returns (k : Z) (fuel : nat) (packages : list Package) :
  forall s, steady k s ->
    0 <= distributionsFound s < 2 ^ 32 -> 0 <= packagesScraped s < 2 ^ 32 ->
    exists s' p, launch_all fuel packages s = Some (s', p).
Proof.
  induction packages as [|pkg packages IH]; intros s Hs Hdf Hps;
    [by eexists _, _|].
  simpl. unfold bind, modify.
  set (s0 := set_packagesScraped _ (set_tasksGroup _ s)).
  destruct (crawl_package_returns k fuel pkg s0) as (s1 & p1 & Hc);
    [by apply (steady_ext k s) | done|].
  rewrite Hc. destruct p1 as [e|]; [by eexists _, _|].
  apply crawl_package_inv in Hc as (rows1 & _ & Hps1 & Hrange1 & _ & Hst1);
    [|done].
  simpl. apply IH.
  - apply (steady_ext k s1); [done|done|]. apply Hst1.
    by apply (steady_ext k s).
  - done.
  - simpl. rewrite Hps1. unfold uint32_add. by apply Z.mod_pos_bound.
Qed.


(** *** main *)

Lemma getPackages_sends_one (registry_url : bytes) (s s' : State)
    (packages : list Package) :
  getPackages registry_url s = Some (s', (packages, None)) ->
  rm s' = rm s /\ exists u, wire s' = wire s ++ [(B "GET", u)].
Proof.
  unfold getPackages, http_Get, bind. intros H.
  destruct (url_Parse registry_url) as [err|u]; simpl in H; [discriminate|].
  destruct (RoundTrip _ _ _) as [err|response]; [discriminate|].
  destruct (Body response); [discriminate|].
  injection H as <- _. split; [done|]. by exists u.
Qed.

Lemma main_inv (fuel : nat) (s' : State) (p : option error) :
  main fuel boot = Some (s', p) ->
  exists s1 packages err,
    getPackages (B "https://pypi.org/simple/") boot
    = Some (s1, (packages, err)) /\
    match err with
    | Some e => p = Some e /\ s' = s1
    | None =>
        exists rows,
          writer s'
          = match p with
            | None => Close (writes (header :: rows) NewWriter)
            | Some _ => writes (header :: rows) NewWriter
            end /\
          steady 1 s' /\
          (p = None ->
           tasksGroup s' = 0 /\
           packagesScraped s' = Z.of_nat (length packages) mod 2 ^ 32 /\
           distributionsFound s' = Z.of_nat (length rows) mod 2 ^ 32)
    end.
Proof.
  unfold main, bind, modify. intros H.
  destruct (getPackages _ boot) as [[s1 [packages err]]|] eqn:Hg; [|discriminate].
  exists s1, packages, err. split; [done|].
  destruct err as [e|]; [by injection H as <- <-|].
  apply getPackages_sends_one in Hg as (_ & u & Hwire).
  cbn [set_writer set_rm set_tasksGroup set_packagesScraped
       set_distributionsFound set_totalSizeBytes writer] in H.
  destruct (launch_all fuel packages _) as [[s2 p2]|] eqn:Hl; [|discriminate].
  apply launch_all_inv in Hl as (rows & Hw & Hnone & Hst); [|done|done].
  cbn [writer tasksGroup packagesScraped distributionsFound] in Hw, Hnone.
  specialize (Hst 1). exists rows.
  assert (steady 1 s2) as Hs2.
  { apply Hst. unfold steady.
    cbn [rm wire set_writer set_rm set_tasksGroup set_packagesScraped
         set_distributionsFound set_totalSizeBytes].
    rewrite Hwire. by compute. }
  destruct p2 as [e|]; cbn in H.
  - injection H as <- <-. split; [exact Hw|]. split; [exact Hs2 | done].
  - destruct (Hnone eq_refl) as (Htg & Hps & Hdf).
    unfold tasksGroup_Wait in H. rewrite Htg in H. cbn in H.
    injection H as <- <-.
    cbn [writer tasksGroup packagesScraped distributionsFound set_writer].
    split; [by rewrite Hw|].
    split; [by apply (steady_ext 1 s2)|]. intros _. by rewrite Htg, Hps, Hdf.
Qed.

Lemma main_returns (fuel : nat) : exists s' p, main fuel boot = Some (s', p).
Proof.
  unfold main, bind, modify.
  destruct (getPackages _ boot) as [[s1 [packages err]]|] eqn:Hg.
  2:{ unfold getPackages, http_Get, bind in Hg.
      destruct (url_Parse _); [discriminate|]. simpl in Hg.
      destruct (RoundTrip _ _ _) as [|response]; [discriminate|].
      by destruct (Body response). }
  destruct err as [e|]; [by eexists _, _|].
  apply getPackages_sends_one in Hg as (_ & u & Hwire).
  cbn [set_writer set_rm set_tasksGroup set_packagesScraped
       set_distributionsFound set_totalSizeBytes writer].
  match goal with |- context [launch_all fuel packages ?s] =>
    destruct (launch_all_returns 1 fuel packages s) as (s2 & p2 & Hl);
      [unfold steady;
       cbn [rm wire set_writer set_rm set_tasksGroup set_packagesScraped
            set_distributionsFound set_totalSizeBytes];
       rewrite Hwire; by compute|done|done|]
  end.
  rewrite Hl.
  apply launch_all_inv in Hl as (rows & _ & Hnone & _); [|done|done].
  destruct p2 as [e|]; cbn; [by eexists _, _|].
  destruct (Hnone eq_refl) as (Htg & _). cbn in Htg.
  unfold tasksGroup_Wait. rewrite Htg. cbn. by eexists _, _.
Qed.

(** X9: under the schedule that runs the goroutines one after the
    other, [main] never waits: it returns, with no request left in
    flight, and has closed the file exactly when nothing panicked. *)
Theorem main_runs_to_its_end (fuel : nat) :
  exists s' p,
    main fuel boot = Some (s', p) /\
    totalRequests (rm s') = requestsFinished (rm s') /\
    (closed (writer s') = true <-> p = None).
Proof.
  destruct (main_returns fuel) as (s' & p & Hrun).
  exists s', p. split; [done|].
  destruct (main_inv fuel s' p Hrun) as (s1 & packages & err & Hg & Hcase).
  destruct err as [e|].
  - destruct Hcase as [-> ->].
    apply getPackages_frame in Hg as Hframe.
    destruct Hframe as (_ & _ & _ & _ & Hw).
    assert (rm s1 = rm boot) as Hrm.
    { unfold getPackages, http_Get, bind in Hg.
      destruct (url_Parse _); simpl in Hg; [by injection Hg as <- _|].
      destruct (RoundTrip _ _ _) as [|response]; [by injection Hg as <- _|].
      destruct (Body response); by injection Hg as <- _. }
    rewrite Hrm, Hw. by split.
  - destruct Hcase as (rows & Hw & (Heq & _) & _).
    split; [exact Heq|]. rewrite Hw.
    destruct p; [|by cbn]. rewrite closed_writes. by split.
Qed.

(** X10: under the schedule of [launch_all], which runs each goroutine to
    its end as soon as it is launched, a run of [main] that ends without a
    panic has handed the writer the header and then the data rows, has
    counted one task down for each it counted up, one package for each
    package discovered and one distribution for each data row (modulo
    2^32). *)
Theorem completed_run_counters (fuel : nat) (s' : State) :
  main fuel boot = Some (s', None) ->
  exists s1 packages rows,
    getPackages (B "https://pypi.org/simple/") boot
    = Some (s1, (packages, None)) /\
    records (writer s') = header :: rows /\
    tasksGroup s' = 0 /\
    packagesScraped s' = Z.of_nat (length packages) mod 2 ^ 32 /\
    distributionsFound s' = Z.of_nat (length rows) mod 2 ^ 32.
Proof.
  intros Hrun.
  destruct (main_inv fuel s' None Hrun) as (s1 & packages & err & Hg & Hcase).
  destruct err as [e|]; [by destruct Hcase|].
  destruct Hcase as (rows & Hw & _ & Hnone).
  destruct (Hnone eq_refl) as (Htg & Hps & Hdf).
  exists s1, packages, rows. split; [done|]. split; [|done].
  rewrite Hw. unfold Close. cbn [records]. by rewrite records_writes.
Qed.

(** X11: under the schedule of [launch_all], which runs each goroutine to
    its end as soon as it is launched, a run of [main] that has written
    the header ends, by a panic or not, with a manager that has counted,
    as issued and as completed, every request that went on the wire but
    the one of the discovery. *)
Theorem manager_counts_all_but_discovery (fuel : nat) (s' : State)
    (p : option error) :
  main fuel boot = Some (s', p) ->
  records (writer s') <> [] ->
  totalRequests (rm s') = wrap_int64 (Z.of_nat (length (wire s')) - 1) /\
  requestsFinished (rm s') = wrap_int64 (Z.of_nat (length (wire s')) - 1).
Proof.
  intros Hrun Hrec.
  destruct (main_inv fuel s' p Hrun) as (s1 & packages & err & Hg & Hcase).
  destruct err as [e|].
  - destruct Hcase as [-> ->].
    apply getPackages_frame in Hg as (_ & _ & _ & _ & Hw).
    by rewrite Hw in Hrec.
  - destruct Hcase as (rows & _ & (Heq & _ & Hcount) & _).
    by rewrite <- Heq.
Qed.

(** X12: under the schedule of [launch_all], which runs each goroutine to
    its end as soon as it is launched, a run of [main] that has handed a
    record to the writer ends, by a panic or not, with bytes in the
    writer's buffer, the last line feed among them: the file does not
    hold all that was written. *)
Theorem last_bytes_never_reach_file (fuel : nat) (s' : State)
    (p : option error) :
  main fuel boot = Some (s', p) ->
  records (writer s') <> [] ->
  ends_with_newline (buffered (writer s')) /\
  file (writer s') <> stream (writer s').
Proof.
  intros Hrun Hrec.
  destruct (main_inv fuel s' p Hrun) as (s1 & packages & err & Hg & Hcase).
  destruct err as [e|].
  - destruct Hcase as [-> ->].
    apply getPackages_frame in Hg as (_ & _ & _ & _ & Hw).
    by rewrite Hw in Hrec.
  - destruct Hcase as (rows & Hw & _).
    assert (ends_with_newline (buffered (writer s'))) as Hend.
    { rewrite Hw.
      destruct p; [|unfold Close; cbn [buffered]];
        apply buffered_writes; by right. }
    split; [exact Hend|]. destruct Hend as [b Hb].
    unfold stream. rewrite Hb. intros Heq.
    apply (f_equal length) in Heq. rewrite !length_app in Heq.
    simpl in Heq. lia.
Qed.

(** X14: the rows of one package are handed to the writer in the order
    of its page, each with the package's name and the distribution's
    name, one for each distribution up to the first probe that fails. *)
Theorem rows_follow_page_order (fuel : nat) (pkg : Package)
    (ds : list Distribution) (s s' : State) (p : option error) :
  probe_all fuel pkg ds s = Some (s', p) ->
  0 <= distributionsFound s < 2 ^ 32 ->
  exists sizes : list Z,
    (length sizes <= length ds)%nat /\
    (p = None <-> length sizes = length ds) /\
    records (writer s')
    = records (writer s) ++ zip_with (row_of pkg) ds sizes.
Proof.
  intros Hrun Hrange.
  destruct (probe_all_inv fuel pkg ds s s' p Hrun Hrange)
    as (sizes & Hlen & Hnone & Hw & _).
  exists sizes. split; [done|]. split; [done|].
  by rewrite Hw, records_writes.
Qed.

End RunFacts.

(** ** Concrete runs *)

Import Crawl Interleaving Page.

Lemma stale_reading_reachable : reachable 2 Demo.stale_reading.
Proof.
  unfold reachable, init.
  set (get := B "GET"). set (home := B "https://pypi.org/simple/").
  (* the first goroutine enters and loads [totalRequests] *)
  eapply rtc_l.
  { apply (step_thread _ 0 Idle); [done | apply (step_call _ get home)]. }
  eapply rtc_l.
  { eapply (step_thread _ 0); [done | apply step_load_total]. }
  (* the second goroutine runs a whole request *)
  eapply rtc_l.
  { apply (step_thread _ 1 Idle); [done | apply (step_call _ get home)]. }
  eapply rtc_l.
  { eapply (step_thread _ 1); [done | apply step_load_total]. }
  eapply rtc_l.
  { eapply (step_thread _ 1); [done | apply step_load_finished]. }
  eapply rtc_l.
  { eapply (step_thread _ 1); [done | by apply step_free]. }
  eapply rtc_l.
  { eapply (step_thread _ 1); [done | by eapply step_parse]. }
  eapply rtc_l.
  { eapply (step_thread _ 1); [done | apply step_add_total]. }
  eapply rtc_l.
  { eapply (step_thread _ 1); [done | apply step_send]. }
  eapply rtc_l.
  { eapply (step_thread _ 1); [done | apply step_add_finished]. }
  (* the first goroutine loads [requestsFinished] *)
  eapply rtc_l.
  { eapply (step_thread _ 0); [done | apply step_load_finished]. }
  apply rtc_refl.
Qed.

(** The decimal form of a number that is not negative does not begin
    with a minus sign. *)
Lemma Sprintf_d_nonnegative (n : Z) :
  0 <= n -> head (Sprintf_d n) <> Some "-"%char.
Proof.
  intros Hn. unfold Sprintf_d, B.
  destruct n as [|p|p]; [done| |lia].
  unfold Z.to_int, NilZero.string_of_int, NilZero.string_of_uint.
  destruct (Pos.to_uint p); done.
Qed.

(** C1, refuted as stated: discovery on the registry of the scenario
    sends its request and returns with both counters of the manager where
    they were, not one higher. *)
Lemma C1_discovery_bypasses_manager :
  ~ (forall (P : Platform) (registry_url : bytes) (s s' : State) out,
       getPackages registry_url s = Some (s', out) ->
       totalRequests (rm s') = int64_add (totalRequests (rm s)) 1 /\
       requestsFinished (rm s') = int64_add (requestsFinished (rm s)) 1).
Proof.
  intros H.
  pose (P := Demo.platform Demo.two_packages).
  destruct (@getPackages P (B "https://pypi.org/simple/") boot)
    as [[s' out]|] eqn:Hrun; [|by vm_compute in Hrun].
  destruct (H P _ _ _ _ Hrun) as [Htotal _].
  assert (rm s' = requestManager) as Hrm.
  { vm_compute in Hrun. by injection Hrun as <- _. }
  rewrite Hrm in Htotal. by vm_compute in Htotal.
Qed.

(** C2, refuted as stated: with two goroutines, the state
    [Demo.stale_reading] is reachable, and there the call of
    [getRunningRequests] by the first goroutine has returned -1. *)
Lemma C2_stale_reading_is_negative :
  ~ (forall (P : Platform) (n : nat) (c : Config),
       Z.of_nat n < 2 ^ 63 -> reachable n c ->
       forall i m u running,
         threads c !! i = Some (Compare m u running) -> 0 <= running).
Proof.
  intros H.
  specialize (H _ 2%nat Demo.stale_reading eq_refl stale_reading_reachable
                0%nat _ _ _ eq_refl).
  lia.
Qed.

Lemma C2_witness :
  Z.of_nat 2 < 2 ^ 63 /\
  0 <= getRunningRequests (manager (shared Demo.stale_reading)) /\
  getRunningRequests (manager (shared Demo.stale_reading))
  = flying (threads Demo.stale_reading) /\
  exists sh1 p1 sh2 p2,
    thread_step (shared Demo.stale_reading)
                (LoadTotal (B "HEAD") (B "https://files.example/a")) sh1 p1 /\
    thread_step sh1 p1 sh2 p2 /\
    sh2 = shared Demo.stale_reading /\
    p2 = Compare (B "HEAD") (B "https://files.example/a")
                 (flying (threads Demo.stale_reading)).
Proof.
  split; [done|].
  destruct (C2_running_count_never_negative 2 Demo.stale_reading eq_refl
              stale_reading_reachable) as (H0 & H1 & H2).
  split; [exact H0|]. split; [exact H1|].
  pose proof (step_load_total (shared Demo.stale_reading) (B "HEAD")
                (B "https://files.example/a")) as S1.
  pose proof (step_load_finished (shared Demo.stale_reading) (B "HEAD")
                (B "https://files.example/a")
                (totalRequests (manager (shared Demo.stale_reading)))) as S2.
  destruct (H2 _ _ _ _ _ _ S1 S2) as (Hsh & _ & Hp & _).
  eexists _, _, _, _. split; [exact S1|]. split; [exact S2|].
  split; [exact Hsh | exact Hp].
Defined.

Lemma C3_witness :
  let P := Demo.platform Demo.two_packages in
  getRunningRequests (rm boot) < maxConcurrentRequests (rm boot) /\
  exists s' r,
    Request 0 (B "HEAD") (B "https://files.example/pkga-1.0.tar.gz") boot
    = Some (s', r) /\
    r = Demo.head "https://files.example/pkga-1.0.tar.gz" 1024 /\
    totalRequests (rm s') = 1 /\ requestsFinished (rm s') = 1 /\
    wire s' = [(B "HEAD", B "https://files.example/pkga-1.0.tar.gz")].
Proof.
  intros P. split; [done|].
  destruct (@C3_request_counts_once P 0 (B "HEAD")
              (B "https://files.example/pkga-1.0.tar.gz") boot eq_refl)
    as (s' & r & Hrun & Hcase).
  exists s', r. split; [exact Hrun|]. exact Hcase.
Defined.

(** C4, refuted as stated: the line [Demo.crowded_line] holds the anchor
    with href [a] and text [x], and the extractor returns the single pair
    of href [a] and text [y]. *)
Lemma C4_crowded_line_loses_anchor :
  ~ (forall pre h t post : bytes,
       free_of dquote h = true ->
       free_of "<"%char t = true -> free_of ">"%char t = true ->
       {| href := h; text := t |}
       ∈ exctractUrls (pre ++ anchor_bytes h t ++ post)).
Proof.
  intros H.
  specialize (H [] (B "a") (B "x") (anchor_bytes (B "b") (B "y"))
                eq_refl eq_refl eq_refl).
  vm_compute in H.
  apply list_elem_of_singleton in H. discriminate H.
Qed.

Lemma C4_witness :
  let page := [Other (B "<html>");
               Anchor (B "  ") (B "/simple/pkga/") (B "pkgA") (B "<br/>");
               Anchor [] (B "/simple/pkgb/") (B "pkgB") []] in
  well_formed page = true /\ occurs opener (B "<a>no link</a>") = false /\
  exctractUrls (render page)
  = [ {| href := B "/simple/pkga/"; text := B "pkgA" |};
      {| href := B "/simple/pkgb/"; text := B "pkgB" |} ] /\
  exctractUrls (B "<a>no link</a>") = [].
Proof.
  intros page. split; [done|]. split; [done|].
  exact (C4_one_anchor_per_line page (B "<a>no link</a>") eq_refl eq_refl).
Defined.

Lemma C5_witness :
  let P := Demo.platform Demo.relative_link in
  exists s' packages,
    getPackages (B "https://x/simple/") boot = Some (s', (packages, None)) /\
    packages = [ {| name := B "pkg-a"; url := B "https://x/simple/pkg-a/" |} ].
Proof.
  intros P.
  destruct (@C5_packages_resolved P (B "https://x/simple/") boot
              (B "https://x/simple/")
              {| Request_URL := B "https://x/simple/";
                 Body := inr (B (Demo.anchor "pkg-a/" "pkg-a" ++ Demo.nl));
                 ContentLength := -1 |}
              (B (Demo.anchor "pkg-a/" "pkg-a" ++ Demo.nl))
              eq_refl eq_refl eq_refl)
    as (s' & packages & err & Hrun & _).
  exists s', packages.
  vm_compute in Hrun. injection Hrun as <- <- <-. vm_compute. done.
Defined.

Lemma C6_witness :
  let P := Demo.platform Demo.unknown_length in
  getRunningRequests (rm boot) < maxConcurrentRequests (rm boot) /\
  exists s',
    getDistributions 0 Demo.pkgA boot
    = Some (s', ([Demo.pkga_sdist], None)).
Proof.
  intros P. split; [done|].
  destruct (@C6_distributions_verbatim P 0 Demo.pkgA boot eq_refl)
    as (s' & r & Hget & Hrun).
  exists s'. rewrite Hrun.
  vm_compute in Hget. injection Hget as _ <-. reflexivity.
Defined.

(** C7, where the code departs from it: in the scenario the run ends
    without a panic and closes the file, the three records have been
    handed to the writer, their bytes sit in the writer's buffer, and the
    file is empty. *)
Theorem C7_rows_stay_in_the_buffer :
  exists s,
    @main (Demo.platform Demo.two_packages) 0 boot = Some (s, None) /\
    closed (writer s) = true /\
    records (writer s)
    = [ header;
        [B "pkgA"; B "pkga-1.0.tar.gz"; B "1024"];
        [B "pkgB"; B "pkgb-1.0.tar.gz"; B "2048"] ] /\
    buffered (writer s)
    = B ("Package,Distribution,Size" ++ Demo.nl
         ++ "pkgA,pkga-1.0.tar.gz,1024" ++ Demo.nl
         ++ "pkgB,pkgb-1.0.tar.gz,2048" ++ Demo.nl) /\
    file (writer s) = [].
Proof.
  eexists. split; [vm_compute; reflexivity|]. by vm_compute.
Qed.

(** C8, refuted as stated: on the registry whose distribution reports no
    length the run hands the writer a record whose size field is -1. *)
Lemma C8_unknown_length_row_is_negative :
  ~ (forall (P : Platform) (fuel : nat) (s' : State) (p : option error),
       main fuel boot = Some (s', p) ->
       Forall (fun row => row = header \/ nonnegative_size row)
              (records (writer s'))).
Proof.
  intros H.
  pose (P := Demo.platform Demo.unknown_length).
  destruct (@main P 0 boot) as [[s' p]|] eqn:Hrun; [|by vm_compute in Hrun].
  specialize (H P 0%nat s' p Hrun).
  assert (records (writer s')
          = [header; [B "pkgA"; B "pkga-1.0.tar.gz"; B "-1"]]) as Hrows.
  { vm_compute in Hrun. by injection Hrun as <- _. }
  rewrite Hrows in H.
  apply Forall_cons in H as [_ H]. apply Forall_cons in H as [[H|H] _].
  - discriminate H.
  - destruct H as (n & Hn & Hfield). injection Hfield as Hfield.
    apply (Sprintf_d_nonnegative n Hn). by rewrite <- Hfield.
Qed.

Lemma C8_witness :
  let P := Demo.platform Demo.unknown_length in
  exists s' p responses,
    probe_all 0 Demo.pkgA [Demo.pkga_sdist] boot = Some (s', p) /\
    Forall2 answers_head [Demo.pkga_sdist] responses /\
    records (writer s')
    = records (writer boot)
      ++ zip_with (fun d response =>
                     row_of Demo.pkgA d (int_of_int64 (ContentLength response)))
                  [Demo.pkga_sdist] responses.
Proof.
  intros P.
  assert (exists s' p,
            probe_all 0 Demo.pkgA [Demo.pkga_sdist] (@boot P) = Some (s', p)
            /\ p = None)
    as (s' & p & Hrun & Hp) by (eexists _, _; vm_compute; split; reflexivity).
  destruct (@C8_rows_carry_reported_length P 0 Demo.pkgA [Demo.pkga_sdist]
              boot s' p Hrun) as (responses & _ & Hall & Hanswers & Hrec).
  apply Hall in Hp. exists s', p, responses.
  split; [done|]. split; [|done].
  destruct responses as [|r [|? ?]]; try discriminate Hp. exact Hanswers.
Defined.

(** C9, refuted as stated: with the counter at 5, a successful probe of
    size -1 leaves the counter at 4, which is less. *)
Lemma C9_counter_goes_down :
  ~ (forall (P : Platform) (fuel : nat) (pkg : Package) (d : Distribution)
            (s s1 s' : State) (size : Z) (p : option error),
       in_uint64 (totalSizeBytes s) ->
       getSizeBytes fuel d (set_distributionsFound (fun n => uint32_add n 1) s)
       = Some (s1, (size, None)) ->
       size < 0 ->
       probe fuel pkg d s = Some (s', p) ->
       totalSizeBytes s' = (totalSizeBytes s + (2 ^ 64 + size)) mod 2 ^ 64 /\
       totalSizeBytes s < totalSizeBytes s').
Proof.
  intros H.
  pose (P := Demo.platform Demo.unknown_length).
  pose (s := set_totalSizeBytes (fun _ => 5) (@boot P)).
  destruct (getSizeBytes 0 Demo.pkga_sdist
              (set_distributionsFound (fun n => uint32_add n 1) s))
    as [[s1 [size err]]|] eqn:Hsize; [|by vm_compute in Hsize].
  destruct (probe 0 Demo.pkgA Demo.pkga_sdist s) as [[s' p]|] eqn:Hrun;
    [|by vm_compute in Hrun].
  assert (size = -1 /\ err = None) as [-> ->].
  { vm_compute in Hsize. by injection Hsize as _ <- <-. }
  assert (totalSizeBytes s' = 4) as Hafter.
  { vm_compute in Hrun. by injection Hrun as <- _. }
  destruct (H P 0%nat Demo.pkgA Demo.pkga_sdist s s1 s' (-1) p) as [_ Hup];
    [by vm_compute | exact Hsize | done | exact Hrun |].
  rewrite Hafter in Hup. vm_compute in Hup. discriminate Hup.
Qed.

Lemma C9_witness :
  let P := Demo.platform Demo.unknown_length in
  let s := set_totalSizeBytes (fun _ => 5) boot in
  in_uint64 (totalSizeBytes s) /\
  exists s' p,
    probe 0 Demo.pkgA Demo.pkga_sdist s = Some (s', p) /\
    totalSizeBytes s' = uint64_add (totalSizeBytes s) (uint64_of_int (-1)).
Proof.
  intros P s. split; [by vm_compute|].
  destruct (probe 0 Demo.pkgA Demo.pkga_sdist s) as [[s' p]|] eqn:Hrun;
    [|by vm_compute in Hrun].
  exists s', p. split; [done|].
  destruct (@C9_total_added_before_check P 0 Demo.pkgA Demo.pkga_sdist s s' p
              Hrun ltac:(by vm_compute))
    as (s1 & size & Hsize & Hadd & _).
  vm_compute in Hsize. injection Hsize as _ <- _. exact Hadd.
Defined.

Lemma C10_witness :
  let P := Demo.platform [] in
  exists s' err,
    Head 0 (dist_url Demo.pkga_sdist) boot = Some (s', inl err) /\
    getSizeBytes 0 Demo.pkga_sdist boot = Some (s', (0, Some err)).
Proof.
  intros P.
  destruct (Head 0 (dist_url Demo.pkga_sdist) (@boot P))
    as [[s' [err|response]]|] eqn:Hhead;
    [|by vm_compute in Hhead|by vm_compute in Hhead].
  exists s', err. split; [done|].
  exact (proj1 (@C10_failed_probe_returns_zero P 0 Demo.pkga_sdist boot s' err
                  Hhead)).
Defined.

(** ** Instances of the further properties *)

Lemma X1_witness :
  {| href := B "a"; text := B "y" |} ∈ exctractUrls Demo.crowded_line /\
  exists pre d post,
    Demo.crowded_line
    = pre ++ opener ++ B "a" ++ [dquote] ++ d ++ B ">" ++ B "y"
          ++ closer ++ post /\
    forallb Regexp.dot d = true.
Proof.
  assert ({| href := B "a"; text := B "y" |} ∈ exctractUrls Demo.crowded_line)
    as H by (vm_compute; apply list_elem_of_here).
  split; [exact H|].
  destruct (extraction_sound _ _ H) as (pre & d & post & Heq & _ & Hd & _).
  by exists pre, d, post.
Defined.

Lemma X3_witness :
  free_of dquote (B "a") = true /\ free_of "<"%char (B "x") = true /\
  exctractUrls ([] ++ anchor_bytes (B "a") (B "x")
                   ++ anchor_bytes (B "b") (B "y")) <> [].
Proof.
  split; [done|]. split; [done|].
  exact (anchor_present_some_output [] (B "a") (B "x")
           (anchor_bytes (B "b") (B "y")) eq_refl eq_refl).
Defined.

Lemma X4_witness :
  free_of "<"%char (B "  ") = true /\
  free_of dquote (B "a") = true /\ free_of "<"%char (B "x") = true /\
  exists t' more,
    exctractUrls (B "  " ++ anchor_bytes (B "a") (B "x")
                    ++ anchor_bytes (B "b") (B "y"))
    = {| href := B "a"; text := t' |} :: more.
Proof.
  split; [done|]. split; [done|]. split; [done|].
  destruct (first_href_is_right (B "  ") (B "a") (B "x")
              (anchor_bytes (B "b") (B "y")) eq_refl eq_refl eq_refl)
    as (t' & more & H & _).
  by exists t', more.
Defined.

Lemma X5_witness :
  let P := Demo.platform [] in
  let s := set_rm (totalRequests_Add 10000) boot in
  maxConcurrentRequests (rm s) <= getRunningRequests (rm s) /\
  Request 5 (B "GET") (B "https://pypi.org/simple/") s = None /\
  getDistributions 5 Demo.pkgA s = None /\
  getSizeBytes 5 Demo.pkga_sdist s = None.
Proof.
  intros P s. split; [by vm_compute|].
  apply (@governed_calls_wait_for_ever P 5). by vm_compute.
Defined.

Lemma X6_witness :
  reachable 2 Demo.stale_reading /\ accounted Demo.stale_reading.
Proof.
  split; [exact stale_reading_reachable|].
  exact (counters_account_for_wire 2 Demo.stale_reading
           stale_reading_reachable).
Defined.

Lemma X7_witness :
  let P := Demo.platform [] in
  let n := Z.to_nat 10001 in
  Z.of_nat n < 2 ^ 63 /\
  exists c : Config,
    reachable n c /\
    maxConcurrentRequests (manager (shared c))
    < getRunningRequests (manager (shared c)).
Proof.
  intros P n. split; [by vm_compute|].
  destruct (@ceiling_not_enforced P n (B "GET") (B "https://pypi.org/simple/")
              (B "https://pypi.org/simple/") eq_refl ltac:(by vm_compute))
    as (c & Hreach & _ & Hrun & Hmax).
  exists c. split; [exact Hreach|]. rewrite Hrun, Hmax. by vm_compute.
Defined.

Lemma X8_witness :
  let P := Demo.platform [] in
  exists s' r,
    Request 0 (B "GET") (B "https://pypi.org/simple/") boot = Some (s', r) /\
    rtc solo
        ({| manager := rm boot; sent := wire boot |},
         LoadTotal (B "GET") (B "https://pypi.org/simple/"))
        ({| manager := rm s'; sent := wire s' |}, Returned r).
Proof.
  intros P.
  destruct (@Request_returns P 0 (B "GET") (B "https://pypi.org/simple/") boot
              eq_refl) as (s' & r & Hrun & _).
  exists s', r. split; [exact Hrun|].
  exact (Request_as_steps 0 _ _ boot s' r Hrun).
Defined.

(** A run on the registry with one package and one distribution. *)
Lemma demo_run_completes :
  exists s',
    @main (Demo.platform Demo.unknown_length) 0 boot = Some (s', None) /\
    records (writer s') <> [] /\
    (length (stream (writer s')) <= bufio_size)%nat.
Proof.
  eexists. split; [vm_compute; reflexivity|].
  split; [by vm_compute|].
  apply Nat.leb_le. vm_compute. reflexivity.
Qed.

Lemma X10_witness :
  let P := Demo.platform Demo.unknown_length in
  exists s' rows,
    main 0 boot = Some (s', None) /\
    records (writer s') = header :: rows /\
    tasksGroup s' = 0 /\
    distributionsFound s' = Z.of_nat (length rows) mod 2 ^ 32.
Proof.
  intros P. destruct demo_run_completes as (s' & Hrun & _).
  destruct (@completed_run_counters P 0 s' Hrun)
    as (s1 & packages & rows & _ & Hrec & Htg & _ & Hdf).
  by exists s', rows.
Defined.

Lemma X11_witness :
  let P := Demo.platform Demo.unknown_length in
  exists s',
    main 0 boot = Some (s', None) /\ records (writer s') <> [] /\
    totalRequests (rm s') = wrap_int64 (Z.of_nat (length (wire s')) - 1).
Proof.
  intros P. destruct demo_run_completes as (s' & Hrun & Hrec & _).
  exists s'. split; [exact Hrun|]. split; [exact Hrec|].
  exact (proj1 (@manager_counts_all_but_discovery P 0 s' None Hrun Hrec)).
Defined.

Lemma X12_witness :
  let P := Demo.platform Demo.unknown_length in
  exists s',
    main 0 boot = Some (s', None) /\ records (writer s') <> [] /\
    file (writer s') <> stream (writer s').
Proof.
  intros P. destruct demo_run_completes as (s' & Hrun & Hrec & _).
  exists s'. split; [exact Hrun|]. split; [exact Hrec|].
  exact (proj2 (@last_bytes_never_reach_file P 0 s' None Hrun Hrec)).
Defined.

Lemma X13_witness :
  let P := Demo.platform Demo.unknown_length in
  exists s',
    main 0 boot = Some (s', None) /\
    (length (stream (writer s')) <= bufio_size)%nat /\
    file (writer s') = [].
Proof.
  intros P. destruct demo_run_completes as (s' & Hrun & _ & Hfit).
  exists s'. split; [exact Hrun|]. split; [exact Hfit|].
  exact (@short_output_never_reaches_file P 0 s' None Hrun Hfit).
Defined.

Lemma X14_witness :
  let P := Demo.platform Demo.unknown_length in
  0 <= distributionsFound boot < 2 ^ 32 /\
  exists s' p sizes,
    probe_all 0 Demo.pkgA [Demo.pkga_sdist] boot = Some (s', p) /\
    records (writer s')
    = records (writer boot)
      ++ zip_with (row_of Demo.pkgA) [Demo.pkga_sdist] sizes.
Proof.
  intros P. split; [by vm_compute|].
  assert (exists s' p,
            probe_all 0 Demo.pkgA [Demo.pkga_sdist] (@boot P) = Some (s', p))
    as (s' & p & Hrun) by (eexists _, _; vm_compute; reflexivity).
  destruct (@rows_follow_page_order P 0 Demo.pkgA [Demo.pkga_sdist] boot s' p
              Hrun ltac:(by vm_compute)) as (sizes & _ & _ & Hrec).
  by exists s', p, sizes.
Defined.
